(** * The Canvas2D tile renderer of the Kaetram client

    A shallow embedding of [Canvas] (the Canvas2D renderer of the client:
    [resize], [render], [draw], [drawAnimatedTile], [drawTile], [drawImage],
    [resetAnimatedTiles], [addAnimatedTile], [getFlipped]) and the
    properties its specification states about it.

    Conventions of the embedding.
    - The object is a record; a method is a function from the state before
      the call to the state after it.
    - A JavaScript number that is an identifier, a map index or the result
      of [Math.floor]/[Math.ceil] is a [Z]; a number that comes out of a
      division or of a multiplication by the zoomed tile size is an exact
      rational ([Q]).  Rounding of doubles, [NaN] and the infinities are
      outside the model.
    - The two geometry caches and the animated-tile collection are [gmap]s.
    - What the renderer does to its drawing contexts is recorded, call by
      call, in a log. *)

From Stdlib Require Import ZArith QArith Qround Lia List String.
From stdpp Require Import base option list gmap.
From Equations Require Import Equations.

Local Open Scope Z_scope.

(** ** Numbers *)

(** [Math.trunc]: rounding towards zero. *)
Definition Qtrunc (q : Q) : Z :=
  if Qle_bool 0 q then Qfloor q else Qceiling q.

(** The remainder operator [a % b] of JavaScript on numbers: the result has
    the sign of the dividend, [a - b * trunc (a / b)]. *)
Definition js_rem (a b : Q) : Q :=
  (a - b * inject_Z (Qtrunc (a / b)))%Q.

(** A number used as a condition, as in [dx || cell.dx]: zero is falsy. *)
Definition js_or (a b : Z) : Z := if a =? 0 then b else a.

(** ** The data model *)

(** [enum TileFlip { Horizontal, Vertical, Diagonal }]: a numeric enum, the
    transform lists are [number[]]. *)
Module TileFlip.
Definition Horizontal : Z := 0.
Definition Vertical : Z := 1.
Definition Diagonal : Z := 2.
End TileFlip.

(** The tileset the Map resolves for a tile id; the renderer reads its
    [width] and [firstGid] and hands the object itself to the blit as the
    image source. *)
Module Tileset.
Record t : Type := mk { width : Z; firstGid : Z }.
End Tileset.

(** [interface RendererTile]: the source rectangle of a tile id. *)
Module RendererTile.
Record t : Type := mk {
  relativeTileId : Z;
  setWidth : Q;
  x : Q;
  y : Z;
  width : Z;
  height : Z
}.
End RendererTile.

(** [interface RendererCell]: the destination rectangle of a map index. *)
Module RendererCell.
Record t : Type := mk { dx : Z; dy : Z; width : Z; height : Z }.
End RendererCell.

(** The drawing contexts the renderer draws tiles on. *)
Inductive Context : Type := backContext | foreContext | overlayContext.

(** One call on a [CanvasRenderingContext2D]. *)
Inductive ContextCall : Type :=
  | save
  | restore
  | scale (sx sy : Z)
  | rotate_half_pi                       (* rotate(Math.PI / 2) *)
  | translate (tx ty : Z)
  | blit (image : Tileset.t) (sx : Q) (sy sw sh : Z) (dx dy dw dh : Z)
                                         (* context.drawImage(...) *)
  | fillStyle (colour : string)
  | fillRect_canvas                      (* fillRect(0, 0, width, height) *)
  | clearScreen
  | setCameraView.

(** ** [drawImage]: the blit with flip transforms *)

(** The variables the [for] loop of [drawImage] reads and writes: the
    running destination [dx], [dy], the loop counter [index], the array
    [flips] (which the loop extends) and the calls made on the context. *)
Module Loop.
Record t : Type := mk {
  dx : Z;
  dy : Z;
  index : nat;
  flips : list Z;
  calls : list ContextCall
}.
End Loop.

(** The body of the loop for the current [index], followed by [index++]. *)
Definition drawImage_body (cell : RendererCell.t) (tempX : Z) (s : Loop.t) : Loop.t :=
  let next := S (Loop.index s) in
  match Loop.flips s !! Loop.index s with
  | Some 0 =>
      (* case TileFlip.Horizontal *)
      Loop.mk (- Loop.dx s - RendererCell.width cell) (Loop.dy s) next
              (Loop.flips s) (Loop.calls s ++ [scale (-1) 1])
  | Some 1 =>
      (* case TileFlip.Vertical *)
      Loop.mk (Loop.dx s) (- Loop.dy s - RendererCell.height cell) next
              (Loop.flips s) (Loop.calls s ++ [scale 1 (-1)])
  | Some 2 =>
      (* case TileFlip.Diagonal *)
      let pushed :=
        match Loop.flips s !! next with
        | Some 0 => TileFlip.Horizontal
        | _ => TileFlip.Vertical
        end in
      Loop.mk (Loop.dy s) (- tempX) next
              (Loop.flips s ++ [pushed])
              (Loop.calls s ++ [rotate_half_pi; translate 0 (- RendererCell.height cell)])
  | _ => Loop.mk (Loop.dx s) (Loop.dy s) next (Loop.flips s) (Loop.calls s)
  end.

(** How many Diagonal entries a list holds. *)
Definition diagonals (l : list Z) : nat :=
  length (filter (λ f : Z, f = TileFlip.Diagonal) l).

(** What is left of the loop: every entry from [index] on is visited once,
    and every Diagonal among them adds one entry, which is not a Diagonal. *)
Definition remaining (s : Loop.t) : nat :=
  (length (Loop.flips s) - Loop.index s + diagonals (drop (Loop.index s) (Loop.flips s)))%nat.

Lemma diagonals_app (l k : list Z) : diagonals (l ++ k) = (diagonals l + diagonals k)%nat.
Proof. unfold diagonals. now rewrite filter_app, length_app. Qed.

Lemma drawImage_body_decreases (cell : RendererCell.t) (tempX : Z) (s : Loop.t) :
  (Loop.index s < length (Loop.flips s))%nat →
  (remaining (drawImage_body cell tempX s) < remaining s)%nat.
Proof.
  destruct s as [dx dy i fl cs]; simpl; intros Hlt.
  destruct (lookup_lt_is_Some_2 fl i Hlt) as [f Hf].
  unfold remaining, drawImage_body; simpl. rewrite Hf.
  rewrite (drop_S fl f i Hf).
  assert (Hrest : ∀ g : Z, g ≠ TileFlip.Diagonal →
            diagonals (g :: drop (S i) fl) = diagonals (drop (S i) fl)).
  { intros g Hg. unfold diagonals. now rewrite filter_cons_False. }
  assert (Hdiag : diagonals (TileFlip.Diagonal :: drop (S i) fl)
                  = S (diagonals (drop (S i) fl))).
  { unfold diagonals. now rewrite filter_cons_True. }
  destruct f as [|[p|p|]|p]; simpl Loop.flips; simpl Loop.index;
    try (rewrite Hrest by (unfold TileFlip.Diagonal; lia); lia).
  destruct p as [p|p|]; simpl Loop.flips; simpl Loop.index;
    try (rewrite Hrest by (unfold TileFlip.Diagonal; lia); lia).
  change 2 with TileFlip.Diagonal. rewrite Hdiag.
  rewrite length_app, drop_app_le by lia. rewrite diagonals_app.
  assert (diagonals [match fl !! S i with Some 0 => TileFlip.Horizontal
                                     | _ => TileFlip.Vertical end] = 0%nat) as ->.
  { destruct (fl !! S i) as [[| |]|]; reflexivity. }
  simpl. lia.
Qed.

(** [for (let index = 0; index < flips.length; index++) switch (flips[index]) ...]:
    the length is read again at every turn, so entries pushed by an earlier
    turn are visited too. *)
Equations drawImage_loop (cell : RendererCell.t) (tempX : Z) (s : Loop.t) : Loop.t
  by wf (remaining s) lt :=
drawImage_loop cell tempX s with
  lt_dec (Loop.index s) (length (Loop.flips s)) := {
  | left _ => drawImage_loop cell tempX (drawImage_body cell tempX s)
  | right _ => s }.
Next Obligation. now apply drawImage_body_decreases. Qed.

(** The loop as [drawImage] enters it for a tile with flips:
    [({ dx, dy } = cell); context.save(); let tempX = dx; index = 0]. *)
Definition drawImage_entry (cell : RendererCell.t) (flips : list Z) : Loop.t :=
  Loop.mk (RendererCell.dx cell) (RendererCell.dy cell) 0 flips [save].

(** The calls of [drawImage] on its context, in order. *)
Definition drawImage (image : Tileset.t) (tile : RendererTile.t)
    (cell : RendererCell.t) (flips : list Z) : list ContextCall :=
  let isFlipped := (0 <? length flips)%nat in
  let s :=
    if isFlipped then
      drawImage_loop cell (RendererCell.dx cell) (drawImage_entry cell flips)
    else Loop.mk 0 0 0 flips [] in
  Loop.calls s
  ++ [blit image
        (RendererTile.x tile) (RendererTile.y tile)
        (RendererTile.width tile) (RendererTile.height tile)
        (js_or (Loop.dx s) (RendererCell.dx cell))
        (js_or (Loop.dy s) (RendererCell.dy cell))
        (RendererCell.width cell) (RendererCell.height cell)]
  ++ (if isFlipped then [restore] else []).

(** ** The collaborators *)

(** A visible tile as the Map stores it: a tile id, or a record of a tile
    id and the three flip flags. *)
Module TransformedTile.
Record t : Type := mk { tileId : Z; h : bool; v : bool; d : bool }.
End TransformedTile.

Inductive ClientTile : Type :=
  | TileNumber (n : Z)
  | Transformed (t : TransformedTile.t).

(** The Map, by the methods and fields the renderer reads. *)
Module Map.
Record t (Animation : Type) : Type := mk {
  isHighTile : Z → bool;
  isAnimatedTile : Z → bool;
  isLightTile : Z → bool;
  isFlipped : ClientTile → bool;
  getTilesetFromId : Z → option Tileset.t;
  getTileAnimation : Z → Animation;
  dynamicAnimatedTiles : Z → bool;
  width : Z
}.
Arguments mk {Animation}.
Arguments isHighTile {Animation}.
Arguments isAnimatedTile {Animation}.
Arguments isLightTile {Animation}.
Arguments isFlipped {Animation}.
Arguments getTilesetFromId {Animation}.
Arguments getTileAnimation {Animation}.
Arguments dynamicAnimatedTiles {Animation}.
Arguments width {Animation}.
End Map.

(** The game, by what the renderer reads of it: [game.overlays.hasOverlay()]
    and [game.time]. *)
Module Game.
Record t : Type := mk { hasOverlay : bool; time : Z }.
End Game.

(** Modelled from the spec: the [Tile] class, which is not among the
    sources.  An Animated Tile holds its identity (tile id, position index,
    animation definition, flip flag, layer flag) as the constructor
    receives it, and its playback state (current frame index, last-accessed
    time). *)
Module Tile.
Record t (Animation : Type) : Type := mk {
  id : Z;
  index : Z;
  animationInfo : Animation;
  isFlipped : bool;
  isHighTile : bool;
  animationIndex : Z;
  lastAccessed : Z
}.
Arguments mk {Animation}.
Arguments id {Animation}.
Arguments index {Animation}.
Arguments animationInfo {Animation}.
Arguments isFlipped {Animation}.
Arguments isHighTile {Animation}.
Arguments animationIndex {Animation}.
Arguments lastAccessed {Animation}.

(** [new Tile(id, index, animationInfo, isFlipped, isHighTile)] *)
Definition new {Animation} (id index : Z) (animationInfo : Animation)
    (isFlipped isHighTile : bool) : t Animation :=
  mk id index animationInfo isFlipped isHighTile 0 0.

Definition set_animationIndex {Animation} (n : Z) (tile : t Animation) : t Animation :=
  mk (id tile) (index tile) (animationInfo tile) (isFlipped tile)
     (isHighTile tile) n (lastAccessed tile).

Definition set_lastAccessed {Animation} (n : Z) (tile : t Animation) : t Animation :=
  mk (id tile) (index tile) (animationInfo tile) (isFlipped tile)
     (isHighTile tile) (animationIndex tile) n.
End Tile.

(** The [Renderer] base class, which is not among the sources, as the
    interface [Canvas] uses: the fields it reads and the methods it calls,
    over the base class's own state [R].  The base class does not see the
    private caches of [Canvas] nor its log. *)
Module Renderer.
Class t (R : Type) : Type := mk {
  stopRendering : R → bool;
  animateTiles : R → bool;
  tileSize : R → Z;
  actualTileSize : R → Q;
  hasRenderedFrame : R → bool;
  saveFrame : R → R;
  resize : R → R;                      (* super.resize() *)
  render : R → R                       (* super.render() *)
}.
End Renderer.

(** Modelled from the spec: [getX], a method of the [Renderer] base class,
    which is not among the sources.  The spec gives the column of map index
    [i] on a map of width [w] as [i % w], and the code computes it as
    [getX(i + 1, w)]: [getX] maps a position counted from one to its column
    counted from zero. *)
Definition getX (index width : Q) : Q := js_rem (index - 1) width.

(** The key of an animated tile in [animatedTiles]: the tile id, or the
    string [`${tileId}-${index}`].  (JavaScript turns both into strings; the
    decimal form of an integer never has the shape of the second.) *)
Abbreviation Identifier := (Z + Z * Z)%type.

(** ** The state of the renderer *)

Module Canvas.
Record t (R Animation : Type) : Type := mk {
  base : R;
  animatedTiles : gmap Identifier (Tile.t Animation);
  tiles : gmap Z RendererTile.t;
  cells : gmap Z RendererCell.t;
  log : list (Context * ContextCall)
}.
Arguments mk {R Animation}.
Arguments base {R Animation}.
Arguments animatedTiles {R Animation}.
Arguments tiles {R Animation}.
Arguments cells {R Animation}.
Arguments log {R Animation}.

Section Setters.
Context {R Animation : Type}.
Implicit Type st : t R Animation.

Definition set_base (b : R) st : t R Animation :=
  mk b (animatedTiles st) (tiles st) (cells st) (log st).
Definition set_animatedTiles (a : gmap Identifier (Tile.t Animation)) st :=
  mk (base st) a (tiles st) (cells st) (log st).
Definition set_tiles (ts : gmap Z RendererTile.t) st :=
  mk (base st) (animatedTiles st) ts (cells st) (log st).
Definition set_cells (cs : gmap Z RendererCell.t) st :=
  mk (base st) (animatedTiles st) (tiles st) cs (log st).
(** A call on a context is added at the end of the log. *)
Definition call (context : Context) (c : ContextCall) st :=
  mk (base st) (animatedTiles st) (tiles st) (cells st) (log st ++ [(context, c)]).
Definition calls (context : Context) (cs : list ContextCall) st :=
  mk (base st) (animatedTiles st) (tiles st) (cells st)
     (log st ++ map (pair context) cs).
End Setters.

(** The renderer as its constructor leaves it: nothing cached, no
    animated tile, nothing drawn. *)
Definition init {R Animation} (b : R) : t R Animation := mk b ∅ ∅ ∅ [].
End Canvas.

(** ** The methods of [Canvas] *)

Section Methods.
Context {R : Type} `{!Renderer.t R} {Animation : Type}.
Variable map : Map.t Animation.
Variable game : Game.t.

Implicit Type st : Canvas.t R Animation.

(** [resize]: the base class resizes, then every cell is dropped. *)
Definition resize st : Canvas.t R Animation :=
  Canvas.set_cells ∅ (Canvas.set_base (Renderer.resize (Canvas.base st)) st).

(** [getFlipped]: the flip flags of a visible tile, in the order Vertical,
    Diagonal, Horizontal.  A tile that is a number has no flag. *)
Definition getFlipped (tile : ClientTile) : list Z :=
  if negb (Map.isFlipped map tile) then []
  else
    match tile with
    | TileNumber _ => []
    | Transformed t =>
        (if TransformedTile.v t then [TileFlip.Vertical] else [])
        ++ (if TransformedTile.d t then [TileFlip.Diagonal] else [])
        ++ (if TransformedTile.h t then [TileFlip.Horizontal] else [])
    end.

(** [resetAnimatedTiles] *)
Definition resetAnimatedTiles st : Canvas.t R Animation :=
  Canvas.set_animatedTiles (Tile.set_animationIndex 0 <$> Canvas.animatedTiles st) st.

(** [addAnimatedTile] *)
Definition addAnimatedTile (tileId index : Z) st : Canvas.t R Animation :=
  let identifier : Identifier :=
    if index =? -1 then inl tileId else inr (tileId, index) in
  let tile :=
    Tile.new tileId index (Map.getTileAnimation map tileId) false
             (Map.isHighTile map tileId) in
  resetAnimatedTiles
    (Canvas.set_animatedTiles (<[identifier := tile]> (Canvas.animatedTiles st)) st).

(** The source rectangle [drawTile] computes for a tile id of a tileset. *)
Definition computeTile (tileSize : Z) (tileset : Tileset.t) (tileId : Z) : RendererTile.t :=
  let setWidth := (inject_Z (Tileset.width tileset) / inject_Z tileSize)%Q in
  let relativeTileId := tileId - Tileset.firstGid tileset in
  RendererTile.mk
    relativeTileId
    setWidth
    (getX (inject_Z (relativeTileId + 1)) setWidth * inject_Z tileSize)%Q
    (Qfloor (inject_Z relativeTileId / setWidth) * tileSize)
    tileSize
    tileSize.

(** The destination rectangle [drawTile] computes for a map index. *)
Definition computeCell (actualTileSize : Q) (mapWidth : Z) (index : Z) : RendererCell.t :=
  RendererCell.mk
    (Qceiling (getX (inject_Z (index + 1)) (inject_Z mapWidth) * actualTileSize))
    (Qceiling (inject_Z (Qfloor (inject_Z index / inject_Z mapWidth)) * actualTileSize))
    (Qceiling actualTileSize)
    (Qceiling actualTileSize).

(** [this.tiles[tileId]] once [drawTile] has filled the cache: the entry
    that was there, or the one computed for want of it. *)
Definition tileGeometry (tileset : Tileset.t) (tileId : Z) st : RendererTile.t :=
  match Canvas.tiles st !! tileId with
  | Some cached => cached
  | None => computeTile (Renderer.tileSize (Canvas.base st)) tileset tileId
  end.

(** [this.cells[index]] once [drawTile] has filled the cache: computed
    when the index is not cached or the tile has flips, the entry that was
    there otherwise. *)
Definition cellGeometry (index : Z) (flips : list Z) st : RendererCell.t :=
  let fresh :=
    computeCell (Renderer.actualTileSize (Canvas.base st)) (Map.width map) index in
  match Canvas.cells st !! index with
  | Some cached => if (0 <? length flips)%nat then fresh else cached
  | None => fresh
  end.

(** [drawTile] *)
Definition drawTile (context : Context) (tileId index : Z) (flips : list Z) st
    : Canvas.t R Animation :=
  if tileId <? 0 then st
  else
    match Map.getTilesetFromId map tileId with
    | None => st
    | Some tileset =>
        (* if (!(tileId in this.tiles)) this.tiles[tileId] = {...} *)
        let tile := tileGeometry tileset tileId st in
        let st :=
          match Canvas.tiles st !! tileId with
          | Some _ => st
          | None => Canvas.set_tiles (<[tileId := tile]> (Canvas.tiles st)) st
          end in
        (* if (!(index in this.cells) || flips.length > 0) this.cells[index] = {...} *)
        let cell := cellGeometry index flips st in
        let st :=
          match Canvas.cells st !! index with
          | Some _ =>
              if (0 <? length flips)%nat
              then Canvas.set_cells (<[index := cell]> (Canvas.cells st)) st
              else st
          | None => Canvas.set_cells (<[index := cell]> (Canvas.cells st)) st
          end in
        (* this.drawImage(context, tileset, this.tiles[tileId], this.cells[index], flips) *)
        Canvas.calls context (drawImage tileset tile cell flips) st
    end.

(** The first half of [drawAnimatedTile]: the animated tile of a tile id
    at a map index is looked up in [animatedTiles], registered first when
    it is not there, and stamped with the game time. *)
Definition animatedTileAt (tile index : Z) st
    : Canvas.t R Animation * option (Tile.t Animation) :=
  let isDynamicallyAnimated := Map.dynamicAnimatedTiles map index in
  let identifier : Identifier :=
    if isDynamicallyAnimated then inr (tile, index) else inl tile in
  (* if (!(identifier in this.animatedTiles)) this.addAnimatedTile(...) *)
  let st :=
    match Canvas.animatedTiles st !! identifier with
    | Some _ => st
    | None => addAnimatedTile tile (if isDynamicallyAnimated then index else -1) st
    end in
  match Canvas.animatedTiles st !! identifier with
  | None => (st, None)
  | Some animatedTile =>
      (* animatedTile.lastAccessed = this.game.time *)
      let animatedTile := Tile.set_lastAccessed (Game.time game) animatedTile in
      (Canvas.set_animatedTiles
         (<[identifier := animatedTile]> (Canvas.animatedTiles st)) st,
       Some animatedTile)
  end.

(** The test of the de-duplication rule of [drawAnimatedTile]:
    [flips.length === 0 && animatedTile.isFlipped]. *)
Definition doubleDraw (flips : list Z) (animatedTile : Tile.t Animation) : bool :=
  (length flips =? 0)%nat && Tile.isFlipped animatedTile.

(** [drawAnimatedTile] *)
Definition drawAnimatedTile (tile index : Z) (flips : list Z) st
    : Canvas.t R Animation :=
  if negb (Renderer.animateTiles (Canvas.base st)) then st
  else
    match animatedTileAt tile index st with
    | (st, None) => st
    | (st, Some animatedTile) =>
        (* Prevent double draws when drawing flipped animated tiles. *)
        if doubleDraw flips animatedTile then st
        else
          let context :=
            if Tile.isHighTile animatedTile then foreContext else backContext in
          drawTile context (Tile.id animatedTile + 1) index flips st
    end.

(** [forEachDrawingContext], for a callback that makes one call on the
    context it is given; [drawingContexts] is [[backContext, foreContext]]. *)
Definition forEachDrawingContext (callback : ContextCall) st : Canvas.t R Animation :=
  fold_left (λ st context, Canvas.call context callback st) [backContext; foreContext] st.

Definition clearDrawing st := forEachDrawingContext clearScreen st.
Definition saveDrawing st := forEachDrawingContext save st.
Definition restoreDrawing st := forEachDrawingContext restore st.
Definition updateDrawingView st := forEachDrawingContext setCameraView st.

(** The property read [tile.tileId]; a number has no such property. *)
Definition tileId_of (tile : ClientTile) : option Z :=
  match tile with
  | TileNumber _ => None
  | Transformed t => Some (TransformedTile.tileId t)
  end.

(** The cast [tile as number].  It holds for a tile id; a record that
    reaches it is not a number, and what the Map answers for it is not
    modelled. *)
Definition as_number (tile : ClientTile) : option Z :=
  match tile with
  | TileNumber n => Some n
  | Transformed _ => None
  end.

(** The surface [draw] picks for a tile id. *)
Definition tileContext (tile : Z) : Context :=
  let isHighTile := Map.isHighTile map tile in
  let context := if isHighTile then foreContext else backContext in
  if Game.hasOverlay game then
    let isLightTile := Map.isLightTile map tile in
    if isLightTile then overlayContext else context
  else context.

(** The tile id [draw] works with for a visible tile:
    [if (flips.length > 0) tile = tile.tileId], then [tile as number]. *)
Definition visibleTileId (tile : ClientTile) : option Z :=
  if (0 <? length (getFlipped tile))%nat then tileId_of tile else as_number tile.

(** The callback [draw] hands to [forEachVisibleTile]. *)
Definition drawVisibleTile (tile : ClientTile) (index : Z) st
    : option (Canvas.t R Animation) :=
  let flips := getFlipped tile in
  tile ← visibleTileId tile;
  let animated := Map.isAnimatedTile map tile in
  let context := tileContext tile in
  if Renderer.animateTiles (Canvas.base st) && animated
  then Some (drawAnimatedTile tile index flips st)
  else Some (drawTile context tile index flips st).

(** [forEachVisibleTile], over the sequence of visible tiles and their
    map indices that the camera yields for the frame. *)
Fixpoint forEachVisibleTile (visible : list (ClientTile * Z)) st
    : option (Canvas.t R Animation) :=
  match visible with
  | [] => Some st
  | (tile, index) :: rest =>
      st ← drawVisibleTile tile index st;
      forEachVisibleTile rest st
  end.

(** [draw] *)
Definition draw (visible : list (ClientTile * Z)) st : option (Canvas.t R Animation) :=
  if Renderer.hasRenderedFrame (Canvas.base st) then Some st
  else
    let st := clearDrawing st in
    let st := saveDrawing st in
    let st := Canvas.call backContext (fillStyle "rgba(9, 10, 20, 1)") st in
    let st := Canvas.call backContext fillRect_canvas st in
    let st := updateDrawingView st in
    st ← forEachVisibleTile visible st;
    let st := Canvas.set_base (Renderer.saveFrame (Canvas.base st)) st in
    Some (restoreDrawing st).

(** [render] *)
Definition render (visible : list (ClientTile * Z)) st : option (Canvas.t R Animation) :=
  if Renderer.stopRendering (Canvas.base st) then Some st
  else draw visible (Canvas.set_base (Renderer.render (Canvas.base st)) st).

End Methods.

(** ** Reading the model *)

(** The surfaces of the blits of a log, in order. *)
Definition blits (log : list (Context * ContextCall)) : list Context :=
  omap (λ entry : Context * ContextCall,
          match snd entry with
          | blit _ _ _ _ _ _ _ _ _ => Some (fst entry)
          | _ => None
          end) log.

(** The calls on the context that one entry of a transform list stands for. *)
Definition transformCalls (cell : RendererCell.t) (flip : Z) : list ContextCall :=
  match flip with
  | 0 => [scale (-1) 1]
  | 1 => [scale 1 (-1)]
  | 2 => [rotate_half_pi; translate 0 (- RendererCell.height cell)]
  | _ => []
  end.

(** [turn cell tempX s s']: the loop of [drawImage], started in [s], begins
    a turn in [s'] (or leaves in [s'], when [s'] is past the end). *)
Inductive turn (cell : RendererCell.t) (tempX : Z) : Loop.t → Loop.t → Prop :=
  | turn_here (s : Loop.t) : turn cell tempX s s
  | turn_next (s s' : Loop.t) :
      (Loop.index s < length (Loop.flips s))%nat →
      turn cell tempX (drawImage_body cell tempX s) s' →
      turn cell tempX s s'.

(** [pushes flips s]: the loop, started on the list [flips], has so far
    pushed one entry for each Diagonal it has visited, none of them a
    Diagonal. *)
Definition pushes (flips : list Z) (s : Loop.t) : Prop :=
  ∃ pushed : list Z,
    Loop.flips s = flips ++ pushed
    ∧ length pushed = diagonals (take (Loop.index s) (Loop.flips s))
    ∧ diagonals pushed = 0%nat
    ∧ (Loop.index s ≤ length (Loop.flips s))%nat.

(** The every-tile invariant behind the de-duplication rule: no animated
    tile of the collection is flagged as flipped. *)
Definition unflipped {R Animation : Type} (st : Canvas.t R Animation) : Prop :=
  ∀ (identifier : Identifier) (animatedTile : Tile.t Animation),
    Canvas.animatedTiles st !! identifier = Some animatedTile →
    Tile.isFlipped animatedTile = false.

(** The states of the renderer: what its constructor builds, and what any
    of its methods, called with any arguments in any environment, makes of
    a state. *)
Inductive reachable {R : Type} `{!Renderer.t R} {Animation : Type}
    : Canvas.t R Animation → Prop :=
  | reachable_init (b : R) : reachable (Canvas.init b)
  | reachable_resize st : reachable st → reachable (resize st)
  | reachable_render map game visible st st' :
      reachable st → render map game visible st = Some st' → reachable st'
  | reachable_draw map game visible st st' :
      reachable st → draw map game visible st = Some st' → reachable st'
  | reachable_drawVisibleTile map game tile index st st' :
      reachable st → drawVisibleTile map game tile index st = Some st' → reachable st'
  | reachable_drawAnimatedTile map game tile index flips st :
      reachable st → reachable (drawAnimatedTile map game tile index flips st)
  | reachable_drawTile map context tileId index flips st :
      reachable st → reachable (drawTile map context tileId index flips st)
  | reachable_addAnimatedTile map tileId index st :
      reachable st → reachable (addAnimatedTile map tileId index st)
  | reachable_resetAnimatedTiles st :
      reachable st → reachable (resetAnimatedTiles st)
  | reachable_forEachDrawingContext callback st :
      reachable st → reachable (forEachDrawingContext callback st)
  | reachable_call context c st :
      (* a call on a drawing context *)
      reachable st → reachable (Canvas.call context c st)
  | reachable_base b st :
      (* the base class changes its own state *)
      reachable st → reachable (Canvas.set_base b st).

(** The calls [draw] makes before it draws the visible tiles, and after. *)
Definition drawPrologue : list (Context * ContextCall) :=
  [(backContext, clearScreen); (foreContext, clearScreen);
   (backContext, save); (foreContext, save);
   (backContext, fillStyle "rgba(9, 10, 20, 1)"); (backContext, fillRect_canvas);
   (backContext, setCameraView); (foreContext, setCameraView)].

Definition drawEpilogue : list (Context * ContextCall) :=
  [(backContext, restore); (foreContext, restore)].

(** The animated tile that stands for a tile id which is not dynamically
    animated: the one in the collection, or the one [addAnimatedTile] makes
    when there is none yet. *)
Definition animatedTileOf {R Animation : Type} (map : Map.t Animation) (tile : Z)
    (st : Canvas.t R Animation) : Tile.t Animation :=
  match Canvas.animatedTiles st !! (inl tile : Identifier) with
  | Some animatedTile => animatedTile
  | None =>
      Tile.new tile (-1) (Map.getTileAnimation map tile) false (Map.isHighTile map tile)
  end.

(** What one visible tile adds to the log of calls: nothing, or the calls
    of one [drawImage] on one context. *)
Inductive tileSegment : list (Context * ContextCall) → Prop :=
  | tileSegment_skip : tileSegment []
  | tileSegment_draw (context : Context) (image : Tileset.t) (tile : RendererTile.t)
      (cell : RendererCell.t) (flips : list Z) :
      tileSegment (List.map (pair context) (drawImage image tile cell flips)).

Definition Context_eqb (a b : Context) : bool :=
  match a, b with
  | backContext, backContext | foreContext, foreContext
  | overlayContext, overlayContext => true
  | _, _ => false
  end.

(** How many times a log saves, and restores, the state of a context. *)
Definition saves (context : Context) (log : list (Context * ContextCall)) : nat :=
  length (List.filter
            (λ entry : Context * ContextCall,
               match snd entry with
               | save => Context_eqb (fst entry) context
               | _ => false
               end) log).

Definition restores (context : Context) (log : list (Context * ContextCall)) : nat :=
  length (List.filter
            (λ entry : Context * ContextCall,
               match snd entry with
               | restore => Context_eqb (fst entry) context
               | _ => false
               end) log).

(** [grows st st']: from [st] to [st'] no Tile Geometry entry has changed or
    gone, and no map index and no animated-tile identity has left its
    collection. *)
Definition grows {R Animation : Type} (st st' : Canvas.t R Animation) : Prop :=
  Canvas.tiles st ⊆ Canvas.tiles st'
  ∧ dom (Canvas.cells st) ⊆ dom (Canvas.cells st')
  ∧ dom (Canvas.animatedTiles st) ⊆ dom (Canvas.animatedTiles st').

(** ** The entity base class

    [Entity], by the fields and methods that need nothing but the entity
    itself: position, visibility and blinking, the countdown.  Grid and pixel
    coordinates and the counter are whole numbers.  A timer started by
    [setInterval] is an entry of a table from its handle to its callback;
    the table says which callbacks can still fire, and a callback that fires
    is one step of the model (how long an interval lasts is not
    modelled). *)
Module Entity.

Record t : Type := mk {
  x : Z;
  y : Z;
  gridX : Z;
  gridY : Z;
  region : Z;
  visible : bool;
  fading : bool;
  fadingTime : option Z;
  counter : Z;
  counterInterval : option nat;
  blinking : option nat
}.

(** The callbacks the entity hands to [setInterval]. *)
Inductive Callback : Type :=
  | toggleVisibilityCallback            (* () => this.toggleVisibility() *)
  | countdownCallback.                  (* the arrow function of setCountdown *)

(** An entity and the intervals that are running. *)
Record World : Type := world { entity : t; intervals : gmap nat Callback }.

(** [fadeIn] *)
Definition fadeIn (time : Z) (e : t) : t :=
  mk (x e) (y e) (gridX e) (gridY e) (region e) (visible e) true (Some time)
     (counter e) (counterInterval e) (blinking e).

(** [setVisible], [toggleVisibility], [isVisible] *)
Definition setVisible (v : bool) (e : t) : t :=
  mk (x e) (y e) (gridX e) (gridY e) (region e) v (fading e) (fadingTime e)
     (counter e) (counterInterval e) (blinking e).

Definition toggleVisibility (e : t) : t := setVisible (negb (visible e)) e.

Definition isVisible (e : t) : bool := visible e.

(** [setPosition] *)
Definition setPosition (px py : Z) (e : t) : t :=
  mk px py (gridX e) (gridY e) (region e) (visible e) (fading e) (fadingTime e)
     (counter e) (counterInterval e) (blinking e).

(** [getDistance] *)
Definition getDistance (e other : t) : Z :=
  Z.abs (gridX e - gridX other) + Z.abs (gridY e - gridY other).

(** [hasCounter] *)
Definition hasCounter (e : t) : bool := 0 <? counter e.

Section Utils.
(** [Utils.tileSize] and [Utils.getRegion], which are not among the
    sources. *)
Variable tileSize : Z.
Variable getRegion : Z → Z → Z.

(** [setGridPosition] *)
Definition setGridPosition (gx gy : Z) (e : t) : t :=
  setPosition (gx * tileSize) (gy * tileSize)
    (mk (x e) (y e) gx gy (getRegion gx gy) (visible e) (fading e) (fadingTime e)
        (counter e) (counterInterval e) (blinking e)).
End Utils.

(** [clearInterval]; clearing [undefined] does nothing. *)
Definition clearInterval (handle : option nat) (running : gmap nat Callback)
    : gmap nat Callback :=
  match handle with
  | Some h => delete h running
  | None => running
  end.

(** [blink]; [handle] is the handle [window.setInterval] returns. *)
Definition blink (handle : nat) (w : World) : World :=
  let e := entity w in
  world
    (mk (x e) (y e) (gridX e) (gridY e) (region e) (visible e) (fading e)
        (fadingTime e) (counter e) (counterInterval e) (Some handle))
    (<[handle := toggleVisibilityCallback]> (intervals w)).

(** [stopBlinking]; [if (this.blinking)] holds for a handle other than 0. *)
Definition stopBlinking (w : World) : World :=
  let running :=
    match blinking (entity w) with
    | Some h => if (h =? 0)%nat then intervals w else clearInterval (Some h) (intervals w)
    | None => intervals w
    end in
  world (setVisible true (entity w)) running.

(** [setCountdown]; [handle] is the handle [setInterval] returns. *)
Definition setCountdown (count : Z) (handle : nat) (w : World) : World :=
  let e := entity w in
  world
    (mk (x e) (y e) (gridX e) (gridY e) (region e) (visible e) (fading e)
        (fadingTime e) count (Some handle) (blinking e))
    (<[handle := countdownCallback]> (intervals w)).

(** The callback of [setCountdown]. *)
Definition countdown (w : World) : World :=
  let e := entity w in
  if counter e <=? 0 then
    world
      (mk (x e) (y e) (gridX e) (gridY e) (region e) (visible e) (fading e)
          (fadingTime e) (counter e) None (blinking e))
      (clearInterval (counterInterval e) (intervals w))
  else
    world
      (mk (x e) (y e) (gridX e) (gridY e) (region e) (visible e) (fading e)
          (fadingTime e) (counter e - 1) (counterInterval e) (blinking e))
      (intervals w).

(** The interval of a handle fires: its callback runs, if the interval is
    still running. *)
Definition fire (handle : nat) (w : World) : World :=
  match intervals w !! handle with
  | Some toggleVisibilityCallback => world (toggleVisibility (entity w)) (intervals w)
  | Some countdownCallback => countdown w
  | None => w
  end.

(** An entity at the origin, visible, with no timer. *)
Definition sample : t := mk 0 0 0 0 (-1) true false None 0 None None.

End Entity.

(** ** Device detection

    The predicates of [detect.ts] that read the lower-cased user agent and
    the width of the window. *)
Module Detect.

Record Browser : Type := mk { agent : string; innerWidth : Z }.

(** [String.prototype.includes]: the search string occurs somewhere. *)
Fixpoint includes (search s : string) : bool :=
  String.prefix search s
  || match s with
     | EmptyString => false
     | String _ rest => includes search rest
     end.

Definition isLargeScreen (b : Browser) : bool := 1500 <=? innerWidth b.
Definition isIPad (b : Browser) : bool := includes "ipad" (agent b).
Definition isSafari (b : Browser) : bool :=
  includes "safari" (agent b) && negb (includes "chrome" (agent b)).
Definition isEdge (b : Browser) : bool := includes "edge/" (agent b).
Definition isMobile (b : Browser) : bool :=
  includes "android" (agent b) || includes "iphone" (agent b) || includes "ipad" (agent b).
Definition isTablet (b : Browser) : bool := isMobile b && (640 <=? innerWidth b).
Definition isMacintoshFirefox (b : Browser) : bool :=
  includes "mac" (agent b) && includes "firefox" (agent b).
Definition isAppleDevice (b : Browser) : bool := String.prefix "ip" (agent b).

End Detect.

(** ** A sample world

    A base renderer, a Map and a game to run the model on: tiles of 16
    pixels zoomed by a factor, a map ten tiles wide, one tileset of 8 by 8
    tiles for the ids 1 to 64. *)
Module Sample.
Record Base : Type := mk { zoom : Q; rendered : bool }.

#[global] Instance renderer : Renderer.t Base :=
  Renderer.mk Base
    (λ _, false)                        (* stopRendering *)
    (λ _, true)                         (* animateTiles *)
    (λ _, 16)                           (* tileSize *)
    (λ b, (16 * zoom b)%Q)              (* actualTileSize *)
    rendered                            (* hasRenderedFrame *)
    (λ b, b)                            (* saveFrame *)
    (λ b, mk (zoom b * 2) (rendered b)) (* super.resize() *)
    (λ b, b).                           (* super.render() *)

Definition tileset : Tileset.t := Tileset.mk 128 1.

Definition map : Map.t unit :=
  Map.mk
    (λ tile, tile =? 7)                 (* isHighTile *)
    (λ tile, tile =? 9)                 (* isAnimatedTile *)
    (λ tile, tile =? 5)                 (* isLightTile *)
    (λ tile, match tile with
             | TileNumber _ => false
             | Transformed t =>
                 TransformedTile.h t || TransformedTile.v t || TransformedTile.d t
             end)                       (* isFlipped *)
    (λ tile, if (1 <=? tile) && (tile <=? 64) then Some tileset else None)
    (λ _, tt)                           (* getTileAnimation *)
    (λ index, index =? 99)              (* dynamicAnimatedTiles *)
    10.                                 (* width *)

Definition game : Game.t := Game.mk false 1000.
Definition gameWithOverlay : Game.t := Game.mk true 1000.

Definition start : Canvas.t Base unit := Canvas.init (mk 1 false).
End Sample.

(** ** The loop of [drawImage] *)

Section DrawImageLoop.
Variable cell : RendererCell.t.
Variable tempX : Z.

Lemma drawImage_loop_continue (s : Loop.t) :
  (Loop.index s < length (Loop.flips s))%nat →
  drawImage_loop cell tempX s = drawImage_loop cell tempX (drawImage_body cell tempX s).
Proof.
  intros Hlt. rewrite drawImage_loop_equation_1 at 1.
  simpl. destruct (lt_dec _ _); [reflexivity | contradiction].
Qed.

Lemma drawImage_loop_leave (s : Loop.t) :
  (length (Loop.flips s) ≤ Loop.index s)%nat →
  drawImage_loop cell tempX s = s.
Proof.
  intros Hge. rewrite drawImage_loop_equation_1.
  simpl. destruct (lt_dec _ _); [lia | reflexivity].
Qed.

(** One turn: the counter advances by one, the list is kept or extended
    by one entry, and the calls of the visited entry are made. *)
Lemma drawImage_body_index (s : Loop.t) :
  Loop.index (drawImage_body cell tempX s) = S (Loop.index s).
Proof.
  unfold drawImage_body.
  destruct (Loop.flips s !! Loop.index s) as [[|[[]|[]|]|]|]; reflexivity.
Qed.

Lemma drawImage_body_flips (s : Loop.t) :
  ∃ pushed, Loop.flips (drawImage_body cell tempX s) = Loop.flips s ++ pushed.
Proof.
  unfold drawImage_body.
  destruct (Loop.flips s !! Loop.index s) as [[|[[]|[]|]|]|]; simpl;
    try (exists []; now rewrite app_nil_r).
  eexists [_]. reflexivity.
Qed.

Lemma drawImage_body_calls (s : Loop.t) (flip : Z) :
  Loop.flips s !! Loop.index s = Some flip →
  Loop.calls (drawImage_body cell tempX s) = Loop.calls s ++ transformCalls cell flip.
Proof.
  unfold drawImage_body. intros ->.
  destruct flip as [|[[]|[]|]|]; simpl; now rewrite ?app_nil_r.
Qed.

(** The Diagonal turn: the list grows by Horizontal when the entry after
    the Diagonal is Horizontal, by Vertical otherwise. *)
Lemma drawImage_body_diagonal (s : Loop.t) :
  Loop.flips s !! Loop.index s = Some TileFlip.Diagonal →
  Loop.flips (drawImage_body cell tempX s)
  = Loop.flips s
    ++ [if decide (Loop.flips s !! S (Loop.index s) = Some TileFlip.Horizontal)
        then TileFlip.Horizontal else TileFlip.Vertical].
Proof.
  unfold drawImage_body. intros ->. simpl.
  destruct (Loop.flips s !! S (Loop.index s)) as [[| |]|]; reflexivity.
Qed.

(** The loop leaves with every entry of the final list visited, the
    entries it pushed included: the counter stands at the end of the final
    list, and the calls made are those of the entries from the start
    position on, in order. *)
Lemma drawImage_loop_visits_all (s : Loop.t) :
  (Loop.index s ≤ length (Loop.flips s))%nat →
  let final := drawImage_loop cell tempX s in
  Loop.index final = length (Loop.flips final)
  ∧ Loop.flips s `prefix_of` Loop.flips final
  ∧ Loop.calls final
    = Loop.calls s
      ++ flat_map (transformCalls cell) (drop (Loop.index s) (Loop.flips final)).
Proof.
  remember (remaining s) as n eqn:Hn. revert s Hn.
  induction n as [n IH] using lt_wf_ind. intros s Hn Hle final. subst final.
  destruct (lt_dec (Loop.index s) (length (Loop.flips s))) as [Hlt|Hge].
  - rewrite (drawImage_loop_continue s Hlt).
    pose proof (drawImage_body_decreases cell tempX s Hlt) as Hdec.
    pose proof (drawImage_body_index s) as Hidx.
    destruct (drawImage_body_flips s) as [pushed Hfl].
    destruct (lookup_lt_is_Some_2 _ _ Hlt) as [flip Hflip].
    pose proof (drawImage_body_calls s flip Hflip) as Hcalls.
    destruct (IH (remaining (drawImage_body cell tempX s)) ltac:(lia)
                 (drawImage_body cell tempX s) eq_refl) as (Hend & Hpre & Hcs).
    { rewrite Hidx, Hfl, length_app. lia. }
    split; [exact Hend|]. split.
    + etransitivity; [|exact Hpre]. rewrite Hfl. now apply prefix_app_r.
    + rewrite Hcs, Hcalls, Hidx, <- app_assoc. f_equal.
      destruct Hpre as [rest Hrest]. rewrite Hfl in Hrest.
      assert (Hat : Loop.flips (drawImage_loop cell tempX (drawImage_body cell tempX s))
                    !! Loop.index s = Some flip).
      { rewrite Hrest, <- app_assoc. now rewrite lookup_app_l by lia. }
      now rewrite (drop_S _ _ _ Hat).
  - rewrite drawImage_loop_leave by lia.
    assert (Loop.index s = length (Loop.flips s)) as Heq by lia.
    split; [exact Heq|]. split; [reflexivity|].
    rewrite Heq, drop_all. simpl. now rewrite app_nil_r.
Qed.

(** A turn of the loop leaves the result of the loop as it is, and only
    ever extends the list. *)
Lemma turn_loop (s s' : Loop.t) :
  turn cell tempX s s' →
  drawImage_loop cell tempX s = drawImage_loop cell tempX s'
  ∧ Loop.flips s `prefix_of` Loop.flips s'
  ∧ (Loop.index s ≤ Loop.index s')%nat.
Proof.
  induction 1 as [s|s s' Hlt _ (IHl & IHp & IHi)].
  - split; [reflexivity|]. split; [reflexivity|lia].
  - split; [now rewrite (drawImage_loop_continue s Hlt)|].
    destruct (drawImage_body_flips s) as [pushed Hfl].
    rewrite drawImage_body_index in IHi. split; [|lia].
    etransitivity; [|exact IHp]. rewrite Hfl. now apply prefix_app_r.
Qed.

Lemma turn_trans (s s' s'' : Loop.t) :
  turn cell tempX s s' → turn cell tempX s' s'' → turn cell tempX s s''.
Proof.
  induction 1 as [s|s s' Hlt _ IH]; [easy|].
  intros Hnext. apply turn_next; [exact Hlt|]. now apply IH.
Qed.

(** The loop gets to every position up to the end of its list. *)
Lemma turn_reaches (s : Loop.t) (position : nat) :
  (Loop.index s ≤ position ≤ length (Loop.flips s))%nat →
  ∃ s', turn cell tempX s s'
        ∧ Loop.index s' = position
        ∧ Loop.flips s `prefix_of` Loop.flips s'.
Proof.
  remember (position - Loop.index s)%nat as n eqn:Hn. revert s Hn.
  induction n as [|n IH]; intros s Hn Hrange.
  - exists s. split; [constructor|]. split; [lia|reflexivity].
  - destruct (drawImage_body_flips s) as [pushed Hfl].
    destruct (IH (drawImage_body cell tempX s)) as (s' & Hturn & Hidx & Hpre).
    + rewrite drawImage_body_index. lia.
    + rewrite drawImage_body_index, Hfl, length_app. lia.
    + exists s'. split; [apply turn_next; [lia|exact Hturn]|].
      split; [exact Hidx|]. etransitivity; [|exact Hpre].
      rewrite Hfl. now apply prefix_app_r.
Qed.

End DrawImageLoop.

(** *** Counting what the loop pushes *)

Lemma diagonals_single (flip : Z) :
  diagonals [flip] = if decide (flip = TileFlip.Diagonal) then 1%nat else 0%nat.
Proof.
  unfold diagonals. destruct (decide (flip = TileFlip.Diagonal)) as [Heq|Hne].
  - now rewrite filter_cons_True.
  - now rewrite filter_cons_False.
Qed.

Lemma diagonals_take_drop (l : list Z) (n : nat) :
  diagonals l = (diagonals (take n l) + diagonals (drop n l))%nat.
Proof. now rewrite <- (take_drop n l) at 1; rewrite diagonals_app. Qed.

Lemma drawImage_body_other (cell : RendererCell.t) (tempX : Z) (s : Loop.t) (flip : Z) :
  Loop.flips s !! Loop.index s = Some flip →
  flip ≠ TileFlip.Diagonal →
  Loop.flips (drawImage_body cell tempX s) = Loop.flips s.
Proof.
  unfold drawImage_body. intros -> Hother.
  destruct flip as [|[[]|[]|]|]; try reflexivity. now contradict Hother.
Qed.

Lemma pushes_entry (cell : RendererCell.t) (flips : list Z) :
  pushes flips (drawImage_entry cell flips).
Proof.
  exists []. simpl. rewrite app_nil_r. repeat split. lia.
Qed.

Lemma pushes_body (cell : RendererCell.t) (tempX : Z) (flips : list Z) (s : Loop.t) :
  (Loop.index s < length (Loop.flips s))%nat →
  pushes flips s → pushes flips (drawImage_body cell tempX s).
Proof.
  intros Hlt (pushed & Hflips & Hcount & Hnone & _).
  destruct (lookup_lt_is_Some_2 _ _ Hlt) as [flip Hflip].
  unfold pushes. rewrite drawImage_body_index.
  destruct (decide (flip = TileFlip.Diagonal)) as [->|Hother].
  - rewrite (drawImage_body_diagonal cell tempX s Hflip).
    set (compensation := if decide (_ = Some TileFlip.Horizontal)
                         then TileFlip.Horizontal else TileFlip.Vertical).
    assert (Hcompensation : diagonals [compensation] = 0%nat).
    { subst compensation. now destruct (decide _). }
    exists (pushed ++ [compensation]). split; [now rewrite Hflips, app_assoc|].
    rewrite take_app_le by lia. rewrite (take_S_r _ _ _ Hflip).
    rewrite !diagonals_app, !length_app, Hcompensation, Hnone, Hcount.
    rewrite diagonals_single. simpl. repeat split; lia.
  - rewrite (drawImage_body_other cell tempX s flip Hflip Hother).
    exists pushed. split; [exact Hflips|].
    rewrite (take_S_r _ _ _ Hflip), diagonals_app, diagonals_single, Hcount.
    destruct (decide (flip = TileFlip.Diagonal)); [contradiction|].
    repeat split; [lia|exact Hnone|lia].
Qed.

Lemma turn_pushes (cell : RendererCell.t) (tempX : Z) (flips : list Z) (s s' : Loop.t) :
  turn cell tempX s s' → pushes flips s → pushes flips s'.
Proof.
  induction 1 as [s|s s' Hlt _ IH]; [easy|].
  intros Hs. apply IH. now apply pushes_body.
Qed.

(** The loop pushes one entry for each Diagonal it has yet to visit. *)
Lemma drawImage_loop_length (cell : RendererCell.t) (tempX : Z) (s : Loop.t) :
  (Loop.index s ≤ length (Loop.flips s))%nat →
  length (Loop.flips (drawImage_loop cell tempX s))
  = (length (Loop.flips s) + diagonals (drop (Loop.index s) (Loop.flips s)))%nat.
Proof.
  remember (remaining s) as n eqn:Hn. revert s Hn.
  induction n as [n IH] using lt_wf_ind. intros s Hn Hle.
  destruct (lt_dec (Loop.index s) (length (Loop.flips s))) as [Hlt|Hge].
  - rewrite (drawImage_loop_continue cell tempX s Hlt).
    pose proof (drawImage_body_decreases cell tempX s Hlt) as Hdec.
    destruct (lookup_lt_is_Some_2 _ _ Hlt) as [flip Hflip].
    rewrite (IH (remaining (drawImage_body cell tempX s)) ltac:(lia)
                (drawImage_body cell tempX s) eq_refl).
    + rewrite drawImage_body_index, (drop_S _ _ _ Hflip).
      change (flip :: drop (S (Loop.index s)) (Loop.flips s))
        with ([flip] ++ drop (S (Loop.index s)) (Loop.flips s)).
      rewrite (diagonals_app [flip]), diagonals_single.
      destruct (decide (flip = TileFlip.Diagonal)) as [->|Hother].
      * rewrite (drawImage_body_diagonal cell tempX s Hflip).
        rewrite drop_app_le, diagonals_app, length_app by lia.
        assert (diagonals [if decide (Loop.flips s !! S (Loop.index s)
                                       = Some TileFlip.Horizontal)
                           then TileFlip.Horizontal else TileFlip.Vertical] = 0%nat) as ->
          by now destruct (decide _).
        simpl. lia.
      * rewrite (drawImage_body_other cell tempX s flip Hflip Hother). lia.
    + rewrite drawImage_body_index.
      destruct (drawImage_body_flips cell tempX s) as [pushed ->].
      rewrite length_app. lia.
  - rewrite drawImage_loop_leave by lia.
    rewrite drop_ge by lia. unfold diagonals. simpl. lia.
Qed.

(** With flips, the calls of [drawImage] are [save], the calls of every
    entry of the list the loop ends with, the blit and [restore]. *)
Lemma drawImage_with_flips (image : Tileset.t) (tile : RendererTile.t)
    (cell : RendererCell.t) (flips : list Z) :
  flips ≠ [] →
  let final := drawImage_loop cell (RendererCell.dx cell) (drawImage_entry cell flips) in
  drawImage image tile cell flips
  = save :: flat_map (transformCalls cell) (Loop.flips final)
    ++ [blit image
          (RendererTile.x tile) (RendererTile.y tile)
          (RendererTile.width tile) (RendererTile.height tile)
          (js_or (Loop.dx final) (RendererCell.dx cell))
          (js_or (Loop.dy final) (RendererCell.dy cell))
          (RendererCell.width cell) (RendererCell.height cell);
        restore].
Proof.
  intros Hflips final. unfold drawImage.
  destruct flips as [|flip flips]; [contradiction|].
  change (0 <? length (flip :: flips))%nat with true. cbv iota. fold final.
  destruct (drawImage_loop_visits_all cell (RendererCell.dx cell)
              (drawImage_entry cell (flip :: flips))) as (_ & _ & Hcalls);
    [simpl; lia|].
  fold final in Hcalls. rewrite Hcalls. reflexivity.
Qed.

(** ** Flip composition *)

(** C1. In [drawImage], at the turn of the loop that stands on a Diagonal:
    when the entry right after the Diagonal in the list is Horizontal, a
    Horizontal is pushed onto the list being iterated, otherwise (another
    entry, or none) a Vertical is pushed.  A later turn of the same loop
    stands on the pushed entry; the loop ends with every entry of the
    extended list visited, and the calls [drawImage] makes on the context
    are [save], the calls of every entry of the extended list in order, the
    blit and [restore].  When the Diagonal is the only one of the list
    [drawImage] was given (as in every list [getFlipped] builds), the list
    read at its turn is that list, and the list the loop ends with is that
    list with the one pushed entry at its end. *)
Theorem drawImage_diagonal_pushes_compensation
    (image : Tileset.t) (tile : RendererTile.t) (cell : RendererCell.t)
    (flips : list Z) (s : Loop.t) :
  turn cell (RendererCell.dx cell) (drawImage_entry cell flips) s →
  Loop.flips s !! Loop.index s = Some TileFlip.Diagonal →
  let tempX := RendererCell.dx cell in
  let pushed :=
    if decide (Loop.flips s !! S (Loop.index s) = Some TileFlip.Horizontal)
    then TileFlip.Horizontal else TileFlip.Vertical in
  let final := drawImage_loop cell tempX (drawImage_entry cell flips) in
  Loop.flips (drawImage_body cell tempX s) = Loop.flips s ++ [pushed]
  ∧ (∃ s', turn cell tempX (drawImage_body cell tempX s) s'
           ∧ Loop.index s' = length (Loop.flips s)
           ∧ (Loop.index s' < length (Loop.flips s'))%nat
           ∧ Loop.flips s' !! Loop.index s' = Some pushed)
  ∧ (Loop.flips s ++ [pushed]) `prefix_of` Loop.flips final
  ∧ Loop.index final = length (Loop.flips final)
  ∧ drawImage image tile cell flips
    = save :: flat_map (transformCalls cell) (Loop.flips final)
      ++ [blit image
            (RendererTile.x tile) (RendererTile.y tile)
            (RendererTile.width tile) (RendererTile.height tile)
            (js_or (Loop.dx final) (RendererCell.dx cell))
            (js_or (Loop.dy final) (RendererCell.dy cell))
            (RendererCell.width cell) (RendererCell.height cell);
          restore]
  ∧ (diagonals flips = 1%nat →
     Loop.flips s = flips ∧ Loop.flips final = flips ++ [pushed]).
Proof.
  intros Hturn Hdiag tempX pushed final. subst tempX final.
  set (tempX := RendererCell.dx cell) in *.
  pose proof (drawImage_body_diagonal cell tempX s Hdiag) as Hpush.
  fold pushed in Hpush.
  pose proof (lookup_lt_Some _ _ _ Hdiag) as Hlt.
  destruct (turn_loop _ _ _ _ Hturn) as (Hsame & Hpre & _).
  destruct (drawImage_loop_visits_all cell tempX (drawImage_entry cell flips))
    as (Hend & _ & Hcalls); [simpl; lia|].
  assert (Hlater : ∃ s', turn cell tempX (drawImage_body cell tempX s) s'
             ∧ Loop.index s' = length (Loop.flips s)
             ∧ (Loop.index s' < length (Loop.flips s'))%nat
             ∧ Loop.flips s' !! Loop.index s' = Some pushed).
  { destruct (turn_reaches cell tempX (drawImage_body cell tempX s)
                (length (Loop.flips s))) as (s' & Hto & Hidx & Hpre').
    { rewrite drawImage_body_index, Hpush, length_app. simpl. lia. }
    exists s'. split; [exact Hto|]. split; [exact Hidx|].
    destruct Hpre' as [rest Hrest]. rewrite Hpush in Hrest.
    rewrite Hidx, Hrest, <- app_assoc. split.
    + rewrite !length_app. simpl. lia.
    + rewrite lookup_app_r by lia. now rewrite Nat.sub_diag. }
  assert (Hfinal : (Loop.flips s ++ [pushed])
                   `prefix_of` Loop.flips (drawImage_loop cell tempX
                                             (drawImage_entry cell flips))).
  { rewrite <- Hpush.
    assert (Hstep : turn cell tempX s (drawImage_body cell tempX s))
      by (apply turn_next; [exact Hlt|constructor]).
    destruct (turn_loop _ _ _ _ Hstep) as (Hsame' & _ & _).
    destruct (drawImage_loop_visits_all cell tempX (drawImage_body cell tempX s))
      as (_ & Hpre' & _).
    { rewrite drawImage_body_index, Hpush, length_app. simpl. lia. }
    now rewrite Hsame, Hsame'. }
  assert (Hnonempty : flips ≠ []).
  { intros ->. inversion Hturn as [|? ? Hbad]; subst; [discriminate Hdiag|].
    simpl in Hbad. lia. }
  repeat (split; [assumption|]). split.
  - exact (drawImage_with_flips image tile cell flips Hnonempty).
  - intros Hone.
    destruct (turn_pushes cell tempX flips _ s Hturn (pushes_entry cell flips))
      as (before & Hflips & Hcount & Hnone & _).
    assert (Hbefore : before = []).
    { apply length_zero_iff_nil.
      pose proof (diagonals_take_drop (Loop.flips s) (Loop.index s)) as Hsplit.
      rewrite (drop_S _ _ _ Hdiag) in Hsplit.
      change (TileFlip.Diagonal :: drop (S (Loop.index s)) (Loop.flips s))
        with ([TileFlip.Diagonal] ++ drop (S (Loop.index s)) (Loop.flips s)) in Hsplit.
      rewrite (diagonals_app [TileFlip.Diagonal]), diagonals_single in Hsplit.
      rewrite Hflips in Hsplit at 1. rewrite diagonals_app, Hnone, Hone in Hsplit.
      simpl in Hsplit. lia. }
    rewrite Hbefore, app_nil_r in Hflips. split; [exact Hflips|].
    rewrite Hflips in Hfinal. symmetry.
    apply prefix_length_eq; [exact Hfinal|].
    rewrite (drawImage_loop_length cell tempX (drawImage_entry cell flips))
      by (simpl; lia).
    change (Loop.flips (drawImage_entry cell flips)) with flips.
    change (Loop.index (drawImage_entry cell flips)) with 0%nat.
    rewrite drop_0, Hone, length_app. simpl. lia.
Qed.

(** The theorem at the list [[Diagonal; Horizontal]], at the loop's first
    turn. *)
Lemma drawImage_diagonal_pushes_compensation_witness :
  let cell := RendererCell.mk 32 48 16 16 in
  let flips := [TileFlip.Diagonal; TileFlip.Horizontal] in
  let entry := drawImage_entry cell flips in
  turn cell 32 entry entry
  ∧ Loop.flips entry !! Loop.index entry = Some TileFlip.Diagonal
  ∧ Loop.flips (drawImage_body cell 32 entry) = flips ++ [TileFlip.Horizontal].
Proof.
  intros cell flips entry.
  split; [constructor|]. split; [reflexivity|].
  exact (proj1 (drawImage_diagonal_pushes_compensation
                  (Tileset.mk 64 1) (RendererTile.mk 0 4 0 0 16 16)
                  cell flips entry (turn_here _ _ _) eq_refl)).
Defined.

(** For the lists [getFlipped] builds, whose only Diagonal is followed by
    Horizontal or by nothing. *)
Example drawImage_flips_vdh :
  Loop.flips (drawImage_loop (RendererCell.mk 16 32 16 16) 16
                (drawImage_entry (RendererCell.mk 16 32 16 16) [1; 2; 0]))
  = [1; 2; 0; 0].
Proof. reflexivity. Qed.

Example drawImage_flips_vd :
  Loop.flips (drawImage_loop (RendererCell.mk 16 32 16 16) 16
                (drawImage_entry (RendererCell.mk 16 32 16 16) [1; 2]))
  = [1; 2; 1].
Proof. reflexivity. Qed.

Example drawImage_calls_vdh :
  drawImage (Tileset.mk 64 1) (RendererTile.mk 0 4 0 0 16 16)
            (RendererCell.mk 16 32 16 16) [1; 2; 0]
  = [save; scale 1 (-1); rotate_half_pi; translate 0 (-16); scale (-1) 1;
     scale (-1) 1; blit (Tileset.mk 64 1) 0 0 16 16 (-48) (-16) 16 16; restore].
Proof. reflexivity. Qed.

(** ** A frame of the sample world *)

(** One frame with the plain tile id 5 visible at map index 12: the
    prologue, one blit on the background from the source rectangle of the
    tile onto the cell of column 2 and row 1, the epilogue. *)
Example render_plain_tile :
  Canvas.log <$> render Sample.map Sample.game [(TileNumber 5, 12)] Sample.start
  = Some (drawPrologue
          ++ [(backContext,
               blit Sample.tileset
                 (RendererTile.x (computeTile 16 Sample.tileset 5)) 0 16 16
                 32 16 16 16)]
          ++ drawEpilogue).
Proof. reflexivity. Qed.

(** The source rectangle of the tile id 13 in the sample tileset, which is
    8 tiles wide and starts at id 1: column 4 and row 1. *)
Example computeTile_13 :
  let source := computeTile 16 Sample.tileset 13 in
  (RendererTile.x source == 64)%Q ∧ RendererTile.y source = 16
  ∧ RendererTile.relativeTileId source = 12.
Proof. repeat split. Qed.

(** A record with flags that the Map does not take for flipped has no
    flips; it then reaches the cast to a number, which the model leaves
    undefined. *)
Example drawVisibleTile_record_without_flips :
  drawVisibleTile Sample.map Sample.game
    (Transformed (TransformedTile.mk 5 false false false)) 12 Sample.start = None.
Proof. reflexivity. Qed.

(** ** [drawTile] and the two geometry caches *)

Section DrawTile.
Context {R : Type} `{!Renderer.t R} {Animation : Type}.
Variable map : Map.t Animation.

Implicit Type st : Canvas.t R Animation.

(** What [drawTile] does when it draws: both caches hold the geometry it
    read, the calls of [drawImage] are made on the context it was given,
    and nothing else changes. *)
Lemma drawTile_draws (context : Context) (tileId index : Z) (flips : list Z)
    (tileset : Tileset.t) st :
  0 ≤ tileId →
  Map.getTilesetFromId map tileId = Some tileset →
  let tile := tileGeometry tileset tileId st in
  let cell := cellGeometry map index flips st in
  drawTile map context tileId index flips st
  = Canvas.mk (Canvas.base st) (Canvas.animatedTiles st)
      (<[tileId := tile]> (Canvas.tiles st))
      (<[index := cell]> (Canvas.cells st))
      (Canvas.log st ++ List.map (pair context) (drawImage tileset tile cell flips)).
Proof.
  intros Hid Hset tile cell. subst tile cell.
  unfold drawTile. rewrite (proj2 (Z.ltb_ge _ _) Hid), Hset.
  unfold tileGeometry, cellGeometry.
  destruct st as [b anim ts cs lg]; simpl.
  destruct (ts !! tileId) as [cachedTile|] eqn:Htile; simpl;
    destruct (cs !! index) as [cachedCell|] eqn:Hcell; simpl;
    destruct (0 <? length flips)%nat; simpl;
    unfold Canvas.calls, Canvas.set_cells, Canvas.set_tiles; simpl;
    try rewrite (insert_id ts tileId) by eassumption;
    try rewrite (insert_id cs index) by eassumption; reflexivity.
Qed.

(** The two early returns of [drawTile]. *)
Lemma drawTile_negative (context : Context) (tileId index : Z) (flips : list Z) st :
  tileId < 0 → drawTile map context tileId index flips st = st.
Proof. intros Hneg. unfold drawTile. now rewrite (proj2 (Z.ltb_lt _ _) Hneg). Qed.

Lemma drawTile_no_tileset (context : Context) (tileId index : Z) (flips : list Z) st :
  Map.getTilesetFromId map tileId = None →
  drawTile map context tileId index flips st = st.
Proof. intros Hnone. unfold drawTile. rewrite Hnone. now destruct (tileId <? 0). Qed.

(** [drawImage] makes one blit. *)
Lemma blits_drawImage (context : Context) (image : Tileset.t)
    (tile : RendererTile.t) (cell : RendererCell.t) (flips : list Z) :
  blits (List.map (pair context) (drawImage image tile cell flips)) = [context].
Proof.
  assert (Htransforms : ∀ l, blits (List.map (pair context)
                               (flat_map (transformCalls cell) l)) = []).
  { induction l as [|flip l IH]; [reflexivity|]. simpl.
    rewrite List.map_app. unfold blits in *. rewrite omap_app, IH, app_nil_r.
    destruct flip as [|[[]|[]|]|]; reflexivity. }
  unfold drawImage. destruct (0 <? length flips)%nat eqn:Hflips; [|reflexivity].
  destruct (drawImage_loop_visits_all cell (RendererCell.dx cell)
              (drawImage_entry cell flips)) as (_ & _ & ->); [simpl; lia|].
  simpl drop. simpl Loop.calls.
  rewrite !List.map_app. unfold blits in *. rewrite !omap_app.
  simpl. rewrite Htransforms. reflexivity.
Qed.

Lemma blits_app (l k : list (Context * ContextCall)) :
  blits (l ++ k) = blits l ++ blits k.
Proof. apply omap_app. Qed.

End DrawTile.

(** C9. [drawTile] does nothing at all (the state after the call is the
    state before it: no call on any context, both caches as they were) when
    the tile id is negative, and when the Map resolves no tileset for it;
    the call returns in both cases. *)
Theorem drawTile_skips {R : Type} `{!Renderer.t R} {Animation : Type}
    (map : Map.t Animation) (context : Context) (tileId index : Z)
    (flips : list Z) (st : Canvas.t R Animation) :
  tileId < 0 ∨ Map.getTilesetFromId map tileId = None →
  drawTile map context tileId index flips st = st.
Proof.
  intros [Hneg|Hnone].
  - now apply drawTile_negative.
  - now apply drawTile_no_tileset.
Qed.

(** The theorem in the sample world, for the tile id -1 and for the tile id
    70, which no tileset holds. *)
Lemma drawTile_skips_witness :
  (-1 < 0 ∨ Map.getTilesetFromId Sample.map (-1) = None)
  ∧ drawTile Sample.map backContext (-1) 12 [] Sample.start = Sample.start
  ∧ (70 < 0 ∨ Map.getTilesetFromId Sample.map 70 = None)
  ∧ drawTile Sample.map foreContext 70 12 [TileFlip.Vertical] Sample.start = Sample.start.
Proof.
  split; [left; reflexivity|].
  split; [apply (drawTile_skips Sample.map backContext (-1) 12 []); left; reflexivity|].
  split; [right; reflexivity|].
  apply (drawTile_skips Sample.map foreContext 70 12 [TileFlip.Vertical]).
  right. reflexivity.
Defined.

(** C8. Tile Geometry is memoized per tile id.  The first [drawTile] for a
    tile id computes the entry and stores it, with [width] and [height]
    equal to the configured tile size; a second [drawTile] for the same
    tile id leaves the Tile Geometry cache as it is and blits from the
    stored entry, which is the very value of the first computation: nothing
    is computed again (not even if the Map were to resolve another tileset
    for the id, [map'] below; for a fixed tileset [map'] is [map]). *)
Theorem drawTile_memoizes_tile {R : Type} `{!Renderer.t R} {Animation : Type}
    (map map' : Map.t Animation) (context context' : Context)
    (tileId index index' : Z) (flips flips' : list Z)
    (tileset tileset' : Tileset.t) (st : Canvas.t R Animation) :
  0 ≤ tileId →
  Map.getTilesetFromId map tileId = Some tileset →
  Map.getTilesetFromId map' tileId = Some tileset' →
  Canvas.tiles st !! tileId = None →
  let first := drawTile map context tileId index flips st in
  let second := drawTile map' context' tileId index' flips' first in
  let computed := computeTile (Renderer.tileSize (Canvas.base st)) tileset tileId in
  Canvas.tiles first !! tileId = Some computed
  ∧ RendererTile.width computed = Renderer.tileSize (Canvas.base st)
  ∧ RendererTile.height computed = Renderer.tileSize (Canvas.base st)
  ∧ Canvas.tiles second = Canvas.tiles first
  ∧ Canvas.tiles second !! tileId = Some computed
  ∧ Canvas.log second
    = Canvas.log first
      ++ List.map (pair context')
           (drawImage tileset' computed (cellGeometry map' index' flips' first) flips').
Proof.
  intros Hid Hset Hset' Hnone first second computed.
  assert (Hfirst : Canvas.tiles first !! tileId = Some computed).
  { subst first. rewrite (drawTile_draws map context tileId index flips tileset st Hid Hset).
    simpl. unfold tileGeometry. rewrite Hnone. apply lookup_insert_eq. }
  assert (Hread : tileGeometry tileset' tileId first = computed).
  { unfold tileGeometry. now rewrite Hfirst. }
  assert (Hsecond : Canvas.tiles second = Canvas.tiles first).
  { subst second.
    rewrite (drawTile_draws map' context' tileId index' flips' tileset' first Hid Hset').
    simpl. rewrite Hread. now apply insert_id. }
  split; [exact Hfirst|]. split; [reflexivity|]. split; [reflexivity|].
  split; [exact Hsecond|]. split; [now rewrite Hsecond|].
  subst second.
  rewrite (drawTile_draws map' context' tileId index' flips' tileset' first Hid Hset').
  simpl. now rewrite Hread.
Qed.

(** The theorem in the sample world: tile id 5, drawn at map index 12 and
    then, flipped, at map index 3. *)
Lemma drawTile_memoizes_tile_witness :
  let first := drawTile Sample.map backContext 5 12 [] Sample.start in
  let second := drawTile Sample.map backContext 5 3 [TileFlip.Horizontal] first in
  (0 ≤ 5
   ∧ Map.getTilesetFromId Sample.map 5 = Some Sample.tileset
   ∧ Canvas.tiles Sample.start !! 5 = None)
  ∧ Canvas.tiles first !! 5 = Some (computeTile 16 Sample.tileset 5)
  ∧ Canvas.tiles second = Canvas.tiles first.
Proof.
  intros first second.
  split; [split; [lia|split; reflexivity]|].
  destruct (drawTile_memoizes_tile Sample.map Sample.map backContext backContext
              5 12 3 [] [TileFlip.Horizontal] Sample.tileset Sample.tileset
              Sample.start ltac:(lia) eq_refl eq_refl eq_refl)
    as (Hfirst & _ & _ & Hsecond & _).
  split; [exact Hfirst|exact Hsecond].
Defined.

(** C3. [resize] empties the Cell Geometry cache and leaves the Tile
    Geometry cache as it is; the next [drawTile] at any map index, cached
    before the resize or not, computes the cell again from the scale the
    resize set, stores it and blits with it. *)
Theorem resize_clears_cells_only {R : Type} `{!Renderer.t R} {Animation : Type}
    (map : Map.t Animation) (context : Context) (tileId index : Z)
    (flips : list Z) (tileset : Tileset.t) (st : Canvas.t R Animation) :
  0 ≤ tileId →
  Map.getTilesetFromId map tileId = Some tileset →
  let resized := resize st in
  let fresh :=
    computeCell (Renderer.actualTileSize (Canvas.base resized)) (Map.width map) index in
  let after := drawTile map context tileId index flips resized in
  Canvas.cells resized = ∅
  ∧ Canvas.tiles resized = Canvas.tiles st
  ∧ Canvas.base resized = Renderer.resize (Canvas.base st)
  ∧ Canvas.cells after = {[ index := fresh ]}
  ∧ Canvas.log after
    = Canvas.log st
      ++ List.map (pair context)
           (drawImage tileset (tileGeometry tileset tileId resized) fresh flips).
Proof.
  intros Hid Hset resized fresh after.
  split; [reflexivity|]. split; [reflexivity|]. split; [reflexivity|].
  subst after.
  rewrite (drawTile_draws map context tileId index flips tileset resized Hid Hset).
  assert (Hcell : cellGeometry map index flips resized = fresh).
  { unfold cellGeometry. simpl. now rewrite lookup_empty. }
  simpl. rewrite Hcell. split; [apply insert_empty|reflexivity].
Qed.

(** The theorem in the sample world: the cell of map index 12 is cached at
    zoom 1, the resize doubles the zoom, and the next draw at index 12
    caches the cell of the doubled scale. *)
Lemma resize_clears_cells_only_witness :
  let st := drawTile Sample.map backContext 5 12 [] Sample.start in
  (0 ≤ 5 ∧ Map.getTilesetFromId Sample.map 5 = Some Sample.tileset)
  ∧ Canvas.cells st !! 12 = Some (RendererCell.mk 32 16 16 16)
  ∧ Canvas.cells (resize st) = ∅
  ∧ Canvas.tiles (resize st) = Canvas.tiles st
  ∧ Canvas.cells (drawTile Sample.map backContext 5 12 [] (resize st))
    = {[ 12 := RendererCell.mk 64 32 32 32 ]}.
Proof.
  intros st. split; [split; [lia|reflexivity]|]. split; [reflexivity|].
  destruct (resize_clears_cells_only Sample.map backContext 5 12 [] Sample.tileset st
              ltac:(lia) eq_refl) as (Hcells & Htiles & _ & Hafter & _).
  split; [exact Hcells|]. split; [exact Htiles|].
  rewrite Hafter. reflexivity.
Defined.

(** ** Cell Geometry *)

(** On a map index and a map width, [getX(index + 1, width)] is the column
    [index mod width]. *)
Lemma getX_column (index width : Z) :
  0 ≤ index → 0 < width →
  (getX (inject_Z (index + 1)) (inject_Z width) == inject_Z (index mod width))%Q.
Proof.
  intros Hindex Hwidth.
  assert (Hpred : (inject_Z (index + 1) - 1 == inject_Z index)%Q).
  { rewrite inject_Z_plus. change (inject_Z 1) with 1%Q. ring. }
  assert (Hquot : ((inject_Z (index + 1) - 1) / inject_Z width
                   == inject_Z index / inject_Z width)%Q)
    by now rewrite Hpred.
  assert (Hpos : (0 <= inject_Z index / inject_Z width)%Q).
  { apply Qle_shift_div_l.
    - change 0%Q with (inject_Z 0). now rewrite <- Zlt_Qlt.
    - rewrite Qmult_0_l. change 0%Q with (inject_Z 0). now rewrite <- Zle_Qle. }
  unfold getX, js_rem, Qtrunc.
  assert (Hsign : Qle_bool 0 ((inject_Z (index + 1) - 1) / inject_Z width) = true).
  { apply Qle_bool_iff. now rewrite Hquot. }
  rewrite Hsign, (Qfloor_comp _ _ Hquot), <- Zdiv_Qdiv, Hpred.
  rewrite Z.mod_eq by lia.
  unfold Zminus. rewrite inject_Z_plus, inject_Z_opp, inject_Z_mult. ring.
Qed.

(** The cell [drawTile] computes for a map index, in the words of the
    end-to-end example. *)
Lemma computeCell_formula (actualTileSize : Q) (mapWidth index : Z) :
  0 ≤ index → 0 < mapWidth →
  computeCell actualTileSize mapWidth index
  = RendererCell.mk
      (Qceiling (inject_Z (index mod mapWidth) * actualTileSize))
      (Qceiling (inject_Z (index / mapWidth) * actualTileSize))
      (Qceiling actualTileSize)
      (Qceiling actualTileSize).
Proof.
  intros Hindex Hwidth. unfold computeCell. f_equal.
  - apply Qceiling_comp. now rewrite (getX_column index mapWidth Hindex Hwidth).
  - now rewrite <- Zdiv_Qdiv.
Qed.

(** Without flips [drawImage] is one blit, onto the rectangle of the cell. *)
Lemma drawImage_no_flips (image : Tileset.t) (tile : RendererTile.t)
    (cell : RendererCell.t) :
  drawImage image tile cell []
  = [blit image
       (RendererTile.x tile) (RendererTile.y tile)
       (RendererTile.width tile) (RendererTile.height tile)
       (RendererCell.dx cell) (RendererCell.dy cell)
       (RendererCell.width cell) (RendererCell.height cell)].
Proof. reflexivity. Qed.

(** C6, as the code has it.  A tile id that is not animated and not a high
    tile, visible without flips at a map index [index] of a map [mapWidth]
    wide (the example: index 12, width 10), is given the cell
    [dx = ceil((index mod mapWidth) * actualTileSize)],
    [dy = ceil(floor(index / mapWidth) * actualTileSize)],
    [width = height = ceil(actualTileSize)] whenever [drawTile] computes
    its cell (and a cell cached earlier at the same scale is that cell too),
    and it is blitted once, onto that rectangle; the blit is on the
    background context when no overlay is active or the Map does not
    classify the tile id as a light tile. *)
Theorem drawVisibleTile_cell_geometry {R : Type} `{!Renderer.t R} {Animation : Type}
    (map : Map.t Animation) (game : Game.t) (tile index : Z)
    (tileset : Tileset.t) (st : Canvas.t R Animation) :
  0 ≤ index →
  0 < Map.width map →
  0 ≤ tile →
  Map.getTilesetFromId map tile = Some tileset →
  Map.isAnimatedTile map tile = false →
  Map.isHighTile map tile = false →
  Game.hasOverlay game && Map.isLightTile map tile = false →
  (∀ cached, Canvas.cells st !! index = Some cached →
             cached = computeCell (Renderer.actualTileSize (Canvas.base st))
                                  (Map.width map) index) →
  let actualTileSize := Renderer.actualTileSize (Canvas.base st) in
  let cell :=
    RendererCell.mk
      (Qceiling (inject_Z (index mod Map.width map) * actualTileSize))
      (Qceiling (inject_Z (index / Map.width map) * actualTileSize))
      (Qceiling actualTileSize)
      (Qceiling actualTileSize) in
  let source := tileGeometry tileset tile st in
  computeCell actualTileSize (Map.width map) index = cell
  ∧ ∃ st', drawVisibleTile map game (TileNumber tile) index st = Some st'
           ∧ Canvas.cells st' !! index = Some cell
           ∧ Canvas.log st'
             = Canvas.log st
               ++ [(backContext,
                    blit tileset
                      (RendererTile.x source) (RendererTile.y source)
                      (RendererTile.width source) (RendererTile.height source)
                      (RendererCell.dx cell) (RendererCell.dy cell)
                      (RendererCell.width cell) (RendererCell.height cell))].
Proof.
  intros Hindex Hwidth Htile Hset Hanimated Hhigh Hlight Hcached actualTileSize cell source.
  pose proof (computeCell_formula actualTileSize (Map.width map) index Hindex Hwidth)
    as Hformula. fold cell in Hformula.
  split; [exact Hformula|].
  assert (Hflips : getFlipped map (TileNumber tile) = []).
  { unfold getFlipped. now destruct (Map.isFlipped map (TileNumber tile)). }
  assert (Hcontext : tileContext map game tile = backContext).
  { unfold tileContext. rewrite Hhigh.
    destruct (Game.hasOverlay game); [|reflexivity].
    simpl in Hlight. now rewrite Hlight. }
  assert (Hcell : cellGeometry map index [] st = cell).
  { unfold cellGeometry. fold actualTileSize. simpl.
    destruct (Canvas.cells st !! index) as [cached|] eqn:Hlookup; [|exact Hformula].
    rewrite (Hcached cached eq_refl). exact Hformula. }
  eexists. unfold drawVisibleTile, visibleTileId. rewrite Hflips. simpl.
  rewrite Hanimated, andb_false_r, Hcontext.
  split; [reflexivity|].
  rewrite (drawTile_draws map backContext tile index [] tileset st Htile Hset).
  simpl. rewrite Hcell. split; [apply lookup_insert_eq|reflexivity].
Qed.

(** The theorem on the example: tile id 5 at map index 12 of the sample
    map, which is 10 wide; column 2 and row 1 at 16 pixels a tile. *)
Lemma drawVisibleTile_cell_geometry_witness :
  (0 ≤ 12 ∧ 0 < Map.width Sample.map ∧ 0 ≤ 5
   ∧ Map.getTilesetFromId Sample.map 5 = Some Sample.tileset
   ∧ Map.isAnimatedTile Sample.map 5 = false
   ∧ Map.isHighTile Sample.map 5 = false
   ∧ Game.hasOverlay Sample.game && Map.isLightTile Sample.map 5 = false
   ∧ Canvas.cells Sample.start !! 12 = None)
  ∧ computeCell (Renderer.actualTileSize (Canvas.base Sample.start)) 10 12
    = RendererCell.mk
        (Qceiling (inject_Z (12 mod 10) * Renderer.actualTileSize (Canvas.base Sample.start)))
        (Qceiling (inject_Z (12 / 10) * Renderer.actualTileSize (Canvas.base Sample.start)))
        (Qceiling (Renderer.actualTileSize (Canvas.base Sample.start)))
        (Qceiling (Renderer.actualTileSize (Canvas.base Sample.start))).
Proof.
  split; [repeat split; try reflexivity; lia|].
  refine (proj1 (drawVisibleTile_cell_geometry Sample.map Sample.game 5 12
                   Sample.tileset Sample.start _ _ _ eq_refl eq_refl eq_refl eq_refl _));
    [lia | reflexivity | lia | intros cached Hcached; discriminate Hcached].
Defined.

(** C6 as stated does not hold: with an overlay active, the tile id 5
    of the sample map, a light tile that is neither animated nor high and
    has no flips, at map index 12 of the map of width 10, is blitted on the
    overlay context and not on the background context. *)
Lemma low_light_tile_blits_on_overlay :
  Map.isAnimatedTile Sample.map 5 = false
  ∧ Map.isHighTile Sample.map 5 = false
  ∧ getFlipped Sample.map (TileNumber 5) = []
  ∧ Map.width Sample.map = 10
  ∧ (blits ∘ Canvas.log)
      <$> drawVisibleTile Sample.map Sample.gameWithOverlay (TileNumber 5) 12 Sample.start
    = Some [overlayContext]
  ∧ (blits ∘ Canvas.log)
      <$> drawVisibleTile Sample.map Sample.gameWithOverlay (TileNumber 5) 12 Sample.start
    ≠ Some [backContext].
Proof. repeat split; try reflexivity. discriminate. Qed.

(** ** The destination of the blit *)

(** With flips, [drawImage] blits at the coordinates the transform sequence
    arrives at, as long as neither of them is zero. *)
Lemma drawImage_adjusted_destination (image : Tileset.t) (tile : RendererTile.t)
    (cell : RendererCell.t) (flips : list Z) :
  flips ≠ [] →
  let final := drawImage_loop cell (RendererCell.dx cell) (drawImage_entry cell flips) in
  Loop.dx final ≠ 0 →
  Loop.dy final ≠ 0 →
  drawImage image tile cell flips
  = Loop.calls final
    ++ [blit image
          (RendererTile.x tile) (RendererTile.y tile)
          (RendererTile.width tile) (RendererTile.height tile)
          (Loop.dx final) (Loop.dy final)
          (RendererCell.width cell) (RendererCell.height cell);
        restore].
Proof.
  intros Hflips final Hdx Hdy. unfold drawImage.
  destruct flips as [|flip flips]; [contradiction|].
  change (0 <? length (flip :: flips))%nat with true. cbv iota. fold final.
  unfold js_or.
  now rewrite (proj2 (Z.eqb_neq _ _) Hdx), (proj2 (Z.eqb_neq _ _) Hdy).
Qed.

(** C7 at the input where the code departs from it.  In the sample world a
    tile with the Diagonal flag is visible at map index 1 (row 0, column 1):
    its cell is [(16, 0, 16, 16)] and its transform list is [[Diagonal]].
    The transform sequence (the Diagonal, then the Vertical it pushes)
    adjusts the destination to [(0, 0)], but the blit is made at
    [(16, 0)]: the adjusted [dx] is zero, and [dx || cell.dx] falls back to
    the x of the cell. *)
Theorem drawImage_zero_destination_falls_back :
  let cell := RendererCell.mk 16 0 16 16 in
  let flips := [TileFlip.Diagonal] in
  let final := drawImage_loop cell (RendererCell.dx cell) (drawImage_entry cell flips) in
  let source := computeTile 16 Sample.tileset 5 in
  let visible := Transformed (TransformedTile.mk 5 false false true) in
  getFlipped Sample.map visible = flips
  ∧ computeCell (Renderer.actualTileSize (Canvas.base Sample.start))
                (Map.width Sample.map) 1 = cell
  ∧ Loop.flips final = [TileFlip.Diagonal; TileFlip.Vertical]
  ∧ (Loop.dx final, Loop.dy final) = (0, 0)
  ∧ drawImage Sample.tileset source cell flips
    = [save; rotate_half_pi; translate 0 (-16); scale 1 (-1);
       blit Sample.tileset
         (RendererTile.x source) (RendererTile.y source) 16 16
         16 0 16 16;
       restore]
  ∧ Canvas.log <$> drawVisibleTile Sample.map Sample.game visible 1 Sample.start
    = Some (List.map (pair backContext) (drawImage Sample.tileset source cell flips)).
Proof. repeat split; reflexivity. Qed.

(** ** Layer routing *)

(** The callback of [draw] on a tile whose tile id the Map does not mark as
    animated: [drawTile] is called with the surface [draw] picks for the tile
    id, every call it makes is on that surface, and it blits there once
    unless [drawTile] skips the tile (negative id, or no tileset). *)
Lemma drawVisibleTile_routes {R : Type} `{!Renderer.t R} {Animation : Type}
    (map : Map.t Animation) (game : Game.t) (visible : ClientTile)
    (tile index : Z) (st : Canvas.t R Animation) :
  visibleTileId map visible = Some tile →
  Map.isAnimatedTile map tile = false →
  let context :=
    if Game.hasOverlay game && Map.isLightTile map tile then overlayContext
    else if Map.isHighTile map tile then foreContext
    else backContext in
  let st' := drawTile map context tile index (getFlipped map visible) st in
  ∃ calls,
    drawVisibleTile map game visible index st = Some st'
    ∧ Canvas.log st' = Canvas.log st ++ List.map (pair context) calls
    ∧ blits (List.map (pair context) calls)
      = (if tile <? 0 then []
         else match Map.getTilesetFromId map tile with
              | Some _ => [context]
              | None => []
              end).
Proof.
  intros Hvisible Hanimated context st'.
  assert (Hcontext : tileContext map game tile = context).
  { unfold tileContext. subst context.
    destruct (Game.hasOverlay game), (Map.isLightTile map tile); reflexivity. }
  assert (Hcall : drawVisibleTile map game visible index st = Some st').
  { unfold drawVisibleTile. rewrite Hvisible. simpl.
    now rewrite Hanimated, andb_false_r, Hcontext. }
  subst st'. destruct (tile <? 0) eqn:Hsign.
  - exists []. split; [exact Hcall|].
    rewrite drawTile_negative by now apply Z.ltb_lt.
    simpl. now rewrite app_nil_r.
  - destruct (Map.getTilesetFromId map tile) as [tileset|] eqn:Hset.
    + apply Z.ltb_ge in Hsign. eexists. split; [exact Hcall|].
      rewrite (drawTile_draws map context tile index _ tileset st Hsign Hset). simpl.
      split; [reflexivity|apply blits_drawImage].
    + exists []. split; [exact Hcall|].
      rewrite drawTile_no_tileset by exact Hset.
      simpl. now rewrite app_nil_r.
Qed.

(** ** Animated tiles *)

(** C4. When [addAnimatedTile] registers an animated tile, every animated
    tile of the collection has frame index 0 afterwards: the tiles that were
    registered before are all still there, the same but for their frame
    index, and the tile that was added is there too. *)
Theorem addAnimatedTile_resets_frames {R : Type} `{!Renderer.t R} {Animation : Type}
    (map : Map.t Animation) (tileId index : Z) (st : Canvas.t R Animation)
    (identifier : Identifier) (registered : Tile.t Animation) :
  Canvas.animatedTiles st !! identifier = Some registered →
  let st' := addAnimatedTile map tileId index st in
  let added : Identifier := if index =? -1 then inl tileId else inr (tileId, index) in
  let new :=
    Tile.new tileId index (Map.getTileAnimation map tileId) false
             (Map.isHighTile map tileId) in
  (∀ other animatedTile,
     Canvas.animatedTiles st' !! other = Some animatedTile →
     Tile.animationIndex animatedTile = 0)
  ∧ Canvas.animatedTiles st' !! added = Some (Tile.set_animationIndex 0 new)
  ∧ (identifier ≠ added →
     Canvas.animatedTiles st' !! identifier
     = Some (Tile.set_animationIndex 0 registered)).
Proof.
  intros Hregistered st' added new. subst st'.
  unfold addAnimatedTile, resetAnimatedTiles. simpl. fold added. fold new.
  split; [|split].
  - intros other animatedTile. rewrite lookup_fmap.
    destruct (_ !! other) as [before|]; simpl; [|discriminate].
    now intros [= <-].
  - now rewrite lookup_fmap, lookup_insert_eq.
  - intros Hother. rewrite lookup_fmap, lookup_insert_ne by congruence.
    now rewrite Hregistered.
Qed.

(** The theorem in the sample world: the tile id 9 is registered and at
    frame 3 when the tile id 11 is added. *)
Lemma addAnimatedTile_resets_frames_witness :
  let nine := Tile.mk 9 (-1) tt false false 3 0 in
  let st := Canvas.set_animatedTiles {[ inl 9 := nine ]} Sample.start in
  Canvas.animatedTiles st !! inl 9 = Some nine
  ∧ Canvas.animatedTiles (addAnimatedTile Sample.map 11 (-1) st) !! inl 9
    = Some (Tile.mk 9 (-1) tt false false 0 0).
Proof.
  intros nine st. split; [reflexivity|].
  refine (proj2 (proj2 (addAnimatedTile_resets_frames Sample.map 11 (-1) st
                          (inl 9) nine eq_refl)) _).
  discriminate.
Defined.

(** *** The flip flag of the animated tiles *)

Section Unflipped.
Context {R : Type} `{!Renderer.t R} {Animation : Type}.

Implicit Type st : Canvas.t R Animation.

Lemma unflipped_same st st' :
  Canvas.animatedTiles st' = Canvas.animatedTiles st → unflipped st → unflipped st'.
Proof. unfold unflipped. now intros ->. Qed.

Lemma unflipped_init (b : R) : unflipped (Canvas.init b : Canvas.t R Animation).
Proof. intros identifier animatedTile. simpl. now rewrite lookup_empty. Qed.

Lemma unflipped_insert st (identifier : Identifier) (animatedTile : Tile.t Animation) :
  Tile.isFlipped animatedTile = false →
  unflipped st →
  unflipped (Canvas.set_animatedTiles
               (<[identifier := animatedTile]> (Canvas.animatedTiles st)) st).
Proof.
  intros Hflag Hst other found. simpl.
  destruct (decide (identifier = other)) as [->|Hne].
  - rewrite lookup_insert_eq. now intros [= <-].
  - rewrite lookup_insert_ne by exact Hne. apply Hst.
Qed.

Lemma unflipped_resetAnimatedTiles st :
  unflipped st → unflipped (resetAnimatedTiles st).
Proof.
  intros Hst identifier animatedTile. simpl. rewrite lookup_fmap.
  destruct (Canvas.animatedTiles st !! identifier) as [before|] eqn:Hbefore;
    simpl; [|discriminate].
  intros [= <-]. simpl. exact (Hst identifier before Hbefore).
Qed.

Lemma unflipped_addAnimatedTile (map : Map.t Animation) (tileId index : Z) st :
  unflipped st → unflipped (addAnimatedTile map tileId index st).
Proof.
  intros Hst. unfold addAnimatedTile.
  apply unflipped_resetAnimatedTiles. now apply unflipped_insert.
Qed.

Lemma drawTile_animatedTiles (map : Map.t Animation) (context : Context)
    (tileId index : Z) (flips : list Z) st :
  Canvas.animatedTiles (drawTile map context tileId index flips st)
  = Canvas.animatedTiles st.
Proof.
  unfold drawTile. destruct (tileId <? 0); [reflexivity|].
  destruct (Map.getTilesetFromId map tileId); [|reflexivity].
  destruct (Canvas.tiles st !! tileId); simpl;
    destruct (Canvas.cells st !! index); simpl;
    destruct (0 <? length flips)%nat; reflexivity.
Qed.

(** The tile [drawAnimatedTile] finds is not flagged as flipped. *)
Lemma animatedTileAt_unflipped (map : Map.t Animation) (game : Game.t)
    (tile index : Z) st :
  unflipped st →
  unflipped (fst (animatedTileAt map game tile index st))
  ∧ ∀ animatedTile,
      snd (animatedTileAt map game tile index st) = Some animatedTile →
      Tile.isFlipped animatedTile = false.
Proof.
  intros Hst. unfold animatedTileAt.
  set (identifier := (if Map.dynamicAnimatedTiles map index
                      then inr (tile, index) else inl tile) : Identifier).
  set (st1 := match Canvas.animatedTiles st !! identifier with
              | Some _ => st
              | None => addAnimatedTile map tile
                          (if Map.dynamicAnimatedTiles map index then index else -1) st
              end).
  assert (Hst1 : unflipped st1).
  { subst st1. destruct (Canvas.animatedTiles st !! identifier); [exact Hst|].
    now apply unflipped_addAnimatedTile. }
  destruct (Canvas.animatedTiles st1 !! identifier) as [found|] eqn:Hfound; simpl.
  - pose proof (Hst1 identifier found Hfound) as Hflag. split.
    + now apply unflipped_insert.
    + now intros animatedTile [= <-].
  - split; [exact Hst1|discriminate].
Qed.

Lemma unflipped_drawAnimatedTile (map : Map.t Animation) (game : Game.t)
    (tile index : Z) (flips : list Z) st :
  unflipped st → unflipped (drawAnimatedTile map game tile index flips st).
Proof.
  intros Hst. unfold drawAnimatedTile.
  destruct (negb _); [exact Hst|].
  destruct (animatedTileAt_unflipped map game tile index st Hst) as [Hfst _].
  destruct (animatedTileAt map game tile index st) as [st1 [animatedTile|]];
    simpl in Hfst; [|exact Hfst].
  destruct (doubleDraw flips animatedTile); [exact Hfst|].
  eapply unflipped_same; [apply drawTile_animatedTiles|exact Hfst].
Qed.

Lemma unflipped_drawVisibleTile (map : Map.t Animation) (game : Game.t)
    (tile : ClientTile) (index : Z) st st' :
  drawVisibleTile map game tile index st = Some st' → unflipped st → unflipped st'.
Proof.
  unfold drawVisibleTile. destruct (visibleTileId map tile) as [id|]; simpl;
    [|discriminate].
  destruct (_ && _); intros [= <-] Hst.
  - now apply unflipped_drawAnimatedTile.
  - eapply unflipped_same; [apply drawTile_animatedTiles|exact Hst].
Qed.

Lemma unflipped_forEachVisibleTile (map : Map.t Animation) (game : Game.t)
    (visible : list (ClientTile * Z)) st st' :
  forEachVisibleTile map game visible st = Some st' → unflipped st → unflipped st'.
Proof.
  revert st. induction visible as [|[tile index] visible IH]; intros st; simpl.
  - now intros [= <-].
  - destruct (drawVisibleTile map game tile index st) as [st1|] eqn:Hone; simpl;
      [|discriminate].
    intros Hrest Hst. apply (IH st1 Hrest).
    exact (unflipped_drawVisibleTile map game tile index st st1 Hone Hst).
Qed.

Lemma forEachDrawingContext_animatedTiles (callback : ContextCall) st :
  Canvas.animatedTiles (forEachDrawingContext callback st) = Canvas.animatedTiles st.
Proof. reflexivity. Qed.

Lemma unflipped_draw (map : Map.t Animation) (game : Game.t)
    (visible : list (ClientTile * Z)) st st' :
  draw map game visible st = Some st' → unflipped st → unflipped st'.
Proof.
  unfold draw. destruct (Renderer.hasRenderedFrame _); [now intros [= <-]|].
  destruct (forEachVisibleTile map game visible _) as [st1|] eqn:Htiles; simpl;
    [|discriminate].
  intros [= <-] Hst.
  eapply unflipped_same;
    [|exact (unflipped_forEachVisibleTile map game visible _ st1 Htiles
               (unflipped_same st _ eq_refl Hst))].
  reflexivity.
Qed.

Lemma unflipped_render (map : Map.t Animation) (game : Game.t)
    (visible : list (ClientTile * Z)) st st' :
  render map game visible st = Some st' → unflipped st → unflipped st'.
Proof.
  unfold render. destruct (Renderer.stopRendering _); [now intros [= <-]|].
  intros Hdraw Hst. eapply unflipped_draw; [exact Hdraw|].
  now apply (unflipped_same st).
Qed.

Lemma reachable_unflipped st : reachable st → unflipped st.
Proof.
  induction 1 as [b | st _ IH | map game visible st st' _ IH Hrender
                 | map game visible st st' _ IH Hdraw
                 | map game tile index st st' _ IH Hone
                 | map game tile index flips st _ IH
                 | map context tileId index flips st _ IH
                 | map tileId index st _ IH
                 | st _ IH
                 | callback st _ IH
                 | context c st _ IH
                 | b st _ IH].
  - apply unflipped_init.
  - now apply (unflipped_same st).
  - exact (unflipped_render map game visible st st' Hrender IH).
  - exact (unflipped_draw map game visible st st' Hdraw IH).
  - exact (unflipped_drawVisibleTile map game tile index st st' Hone IH).
  - now apply unflipped_drawAnimatedTile.
  - eapply unflipped_same; [apply drawTile_animatedTiles|exact IH].
  - now apply unflipped_addAnimatedTile.
  - now apply unflipped_resetAnimatedTiles.
  - now apply (unflipped_same st).
  - now apply (unflipped_same st).
  - now apply (unflipped_same st).
Qed.

(** The states in which [draw] calls [drawAnimatedTile] and [drawTile],
    one visible tile after the other, are states of the renderer. *)
Lemma reachable_forEachVisibleTile (map : Map.t Animation) (game : Game.t)
    (visible : list (ClientTile * Z)) st st' :
  forEachVisibleTile map game visible st = Some st' → reachable st → reachable st'.
Proof.
  revert st. induction visible as [|[tile index] visible IH]; intros st; simpl.
  - now intros [= <-].
  - destruct (drawVisibleTile map game tile index st) as [st1|] eqn:Hone; simpl;
      [|discriminate].
    intros Hrest Hst. apply (IH st1 Hrest).
    exact (reachable_drawVisibleTile map game tile index st st1 Hst Hone).
Qed.

End Unflipped.

(** C10. In every state of the renderer, every animated tile of the
    collection has its flipped flag equal to [false]: the collection starts
    empty, [addAnimatedTile], the only place that puts a tile in, builds it
    with [isFlipped] set to [false], and no method sets the flag.  So the
    test of the de-duplication rule is [false] for the tile
    [drawAnimatedTile] finds, whatever the flips of the call: with the rule
    or without it, [drawAnimatedTile] goes on to [drawTile]. *)
Theorem animated_tiles_never_flipped {R : Type} `{!Renderer.t R} {Animation : Type}
    (st : Canvas.t R Animation) :
  reachable st →
  unflipped st
  ∧ ∀ (map : Map.t Animation) (game : Game.t) (tile index : Z) (flips : list Z),
      match animatedTileAt map game tile index st with
      | (st1, Some animatedTile) =>
          Tile.isFlipped animatedTile = false
          ∧ doubleDraw flips animatedTile = false
          ∧ (Renderer.animateTiles (Canvas.base st) = true →
             drawAnimatedTile map game tile index flips st
             = drawTile map
                 (if Tile.isHighTile animatedTile then foreContext else backContext)
                 (Tile.id animatedTile + 1) index flips st1)
      | (_, None) => True
      end.
Proof.
  intros Hreach. pose proof (reachable_unflipped st Hreach) as Hst.
  split; [exact Hst|]. intros map game tile index flips.
  destruct (animatedTileAt_unflipped map game tile index st Hst) as [_ Hfound].
  unfold drawAnimatedTile.
  destruct (animatedTileAt map game tile index st) as [st1 [animatedTile|]];
    [|exact I].
  pose proof (Hfound animatedTile eq_refl) as Hflag.
  assert (Hdouble : doubleDraw flips animatedTile = false).
  { unfold doubleDraw. rewrite Hflag. apply andb_false_r. }
  split; [exact Hflag|]. split; [exact Hdouble|].
  intros ->. simpl. now rewrite Hdouble.
Qed.

(** The theorem in the sample world, once the animated tile id 9 has been
    drawn at map index 12: the collection holds its tile, unflipped. *)
Lemma animated_tiles_never_flipped_witness :
  let st := drawAnimatedTile Sample.map Sample.game 9 12 [] Sample.start in
  reachable st
  ∧ (Tile.isFlipped <$> Canvas.animatedTiles st !! (inl 9 : Identifier)) = Some false
  ∧ unflipped st.
Proof.
  intros st.
  assert (Hreach : reachable st)
    by apply reachable_drawAnimatedTile, (reachable_init (Sample.mk 1 false)).
  split; [exact Hreach|]. split; [reflexivity|].
  exact (proj1 (animated_tiles_never_flipped st Hreach)).
Defined.

(** *** One frame with a flipped and a plain copy of an animated tile *)

Section AnimatedDraw.
Context {R : Type} `{!Renderer.t R} {Animation : Type}.
Variable map : Map.t Animation.
Variable game : Game.t.

Implicit Type st : Canvas.t R Animation.

(** For a tile id that is not dynamically animated, [drawAnimatedTile]
    finds (or first registers) the animated tile of the tile id; the tile
    it finds has the id and the layer of [animatedTileOf], and only the
    collection of animated tiles has changed. *)
Lemma animatedTileAt_plain (tile index : Z) st :
  Map.dynamicAnimatedTiles map index = false →
  unflipped st →
  ∃ collection found,
    animatedTileAt map game tile index st
    = (Canvas.set_animatedTiles collection st, Some found)
    ∧ collection !! (inl tile : Identifier) = Some found
    ∧ Tile.id found = Tile.id (animatedTileOf map tile st)
    ∧ Tile.isHighTile found = Tile.isHighTile (animatedTileOf map tile st)
    ∧ Tile.isFlipped found = false.
Proof.
  intros Hdynamic Hst. unfold animatedTileAt, animatedTileOf. rewrite Hdynamic.
  destruct (Canvas.animatedTiles st !! inl tile) as [stored|] eqn:Hstored.
  - rewrite Hstored. do 2 eexists. split; [reflexivity|].
    split; [apply lookup_insert_eq|]. split; [reflexivity|].
    split; [reflexivity|]. exact (Hst _ _ Hstored).
  - unfold addAnimatedTile, resetAnimatedTiles. simpl.
    rewrite lookup_fmap, lookup_insert_eq. simpl.
    do 2 eexists. split; [reflexivity|].
    split; [apply lookup_insert_eq|]. repeat split.
Qed.

(** So [drawAnimatedTile] draws the current frame of that animated tile
    on the layer stored in it; the de-duplication rule does not stop it. *)
Lemma drawAnimatedTile_draws (tile index : Z) (flips : list Z)
    (tileset : Tileset.t) st :
  Renderer.animateTiles (Canvas.base st) = true →
  Map.dynamicAnimatedTiles map index = false →
  unflipped st →
  let animatedTile := animatedTileOf map tile st in
  let frame := Tile.id animatedTile + 1 in
  let context := if Tile.isHighTile animatedTile then foreContext else backContext in
  0 ≤ frame →
  Map.getTilesetFromId map frame = Some tileset →
  let source := tileGeometry tileset frame st in
  let cell := cellGeometry map index flips st in
  let st' := drawAnimatedTile map game tile index flips st in
  Canvas.base st' = Canvas.base st
  ∧ Canvas.tiles st' = <[frame := source]> (Canvas.tiles st)
  ∧ Canvas.cells st' = <[index := cell]> (Canvas.cells st)
  ∧ Canvas.log st'
    = Canvas.log st ++ List.map (pair context) (drawImage tileset source cell flips)
  ∧ unflipped st'
  ∧ Tile.id (animatedTileOf map tile st') = Tile.id animatedTile
  ∧ Tile.isHighTile (animatedTileOf map tile st') = Tile.isHighTile animatedTile.
Proof.
  intros Hanimate Hdynamic Hst animatedTile frame context Hframe Hset source cell st'.
  pose proof (unflipped_drawAnimatedTile map game tile index flips st Hst) as Hst'.
  fold st' in Hst'.
  destruct (animatedTileAt_plain tile index st Hdynamic Hst)
    as (collection & found & Hat & Hfound & Hid & Hhigh & Hflag).
  fold animatedTile in Hid, Hhigh.
  assert (Hdraw : st' = drawTile map context frame index flips
                          (Canvas.set_animatedTiles collection st)).
  { subst st'. unfold drawAnimatedTile. rewrite Hanimate, Hat. simpl.
    unfold doubleDraw. rewrite Hflag, andb_false_r, Hid, Hhigh. reflexivity. }
  rewrite (drawTile_draws map context frame index flips tileset _ Hframe Hset) in Hdraw.
  simpl in Hdraw.
  assert (Hof : animatedTileOf map tile st' = found).
  { unfold animatedTileOf. rewrite Hdraw. simpl. now rewrite Hfound. }
  rewrite Hof. rewrite Hdraw. simpl.
  repeat split; try reflexivity; try assumption.
  now rewrite <- Hdraw.
Qed.

(** [draw], when the frame is not already rendered: the prologue, the
    visible tiles, the epilogue. *)
Lemma draw_unfold (visible : list (ClientTile * Z)) st :
  Renderer.hasRenderedFrame (Canvas.base st) = false →
  draw map game visible st
  = (st1 ← forEachVisibleTile map game visible
             (Canvas.mk (Canvas.base st) (Canvas.animatedTiles st) (Canvas.tiles st)
                (Canvas.cells st) (Canvas.log st ++ drawPrologue));
     Some (Canvas.mk (Renderer.saveFrame (Canvas.base st1)) (Canvas.animatedTiles st1)
             (Canvas.tiles st1) (Canvas.cells st1) (Canvas.log st1 ++ drawEpilogue))).
Proof.
  intros Hframe. unfold draw. rewrite Hframe.
  unfold updateDrawingView, saveDrawing, clearDrawing, restoreDrawing,
    forEachDrawingContext, Canvas.call, Canvas.set_base. simpl.
  rewrite <- !app_assoc. simpl.
  destruct (forEachVisibleTile map game visible _) as [st1|]; simpl; [|reflexivity].
  now rewrite <- !app_assoc.
Qed.

End AnimatedDraw.

(** C5. One animated tile id, not dynamically animated, is visible at two
    map indices: with flip transforms at one, without at the other.  Then
    one [draw] pass (tile animation on, frame not rendered yet, the tileset
    of the animated tile's current frame resolved) blits twice, once for
    each index and in the order the two are visited: at the flipped index
    with [save], the calls of its transforms, the blit and [restore]; at the
    other index with the blit alone, onto the rectangle of its cell.  The
    de-duplication rule stops neither draw.  Nothing else is blitted.  (The
    animated tiles of the state are not flagged as flipped, as in every
    state of the renderer: [reachable_unflipped].) *)
Theorem draw_flipped_and_plain_animated_tile
    {R : Type} `{!Renderer.t R} {Animation : Type}
    (map : Map.t Animation) (game : Game.t) (tile : Z)
    (flipped : TransformedTile.t) (flippedIndex plainIndex : Z)
    (tileset : Tileset.t) (st : Canvas.t R Animation) :
  Renderer.hasRenderedFrame (Canvas.base st) = false →
  Renderer.animateTiles (Canvas.base st) = true →
  Map.isAnimatedTile map tile = true →
  Map.dynamicAnimatedTiles map flippedIndex = false →
  Map.dynamicAnimatedTiles map plainIndex = false →
  TransformedTile.tileId flipped = tile →
  getFlipped map (Transformed flipped) ≠ [] →
  flippedIndex ≠ plainIndex →
  unflipped st →
  let animatedTile := animatedTileOf map tile st in
  let frame := Tile.id animatedTile + 1 in
  let context := if Tile.isHighTile animatedTile then foreContext else backContext in
  0 ≤ frame →
  Map.getTilesetFromId map frame = Some tileset →
  let flips := getFlipped map (Transformed flipped) in
  let source := tileGeometry tileset frame st in
  let cellFlipped :=
    computeCell (Renderer.actualTileSize (Canvas.base st)) (Map.width map) flippedIndex in
  let cellPlain := cellGeometry map plainIndex [] st in
  let final :=
    drawImage_loop cellFlipped (RendererCell.dx cellFlipped)
      (drawImage_entry cellFlipped flips) in
  let drawnFlipped :=
    List.map (pair context)
      (save :: flat_map (transformCalls cellFlipped) (Loop.flips final)
       ++ [blit tileset
             (RendererTile.x source) (RendererTile.y source)
             (RendererTile.width source) (RendererTile.height source)
             (js_or (Loop.dx final) (RendererCell.dx cellFlipped))
             (js_or (Loop.dy final) (RendererCell.dy cellFlipped))
             (RendererCell.width cellFlipped) (RendererCell.height cellFlipped);
           restore]) in
  let drawnPlain :=
    [(context,
      blit tileset
        (RendererTile.x source) (RendererTile.y source)
        (RendererTile.width source) (RendererTile.height source)
        (RendererCell.dx cellPlain) (RendererCell.dy cellPlain)
        (RendererCell.width cellPlain) (RendererCell.height cellPlain))] in
  (∃ st',
      draw map game
        [(Transformed flipped, flippedIndex); (TileNumber tile, plainIndex)] st = Some st'
      ∧ Canvas.log st'
        = Canvas.log st ++ drawPrologue ++ drawnFlipped ++ drawnPlain ++ drawEpilogue
      ∧ blits (Canvas.log st') = blits (Canvas.log st) ++ [context; context])
  ∧ (∃ st',
      draw map game
        [(TileNumber tile, plainIndex); (Transformed flipped, flippedIndex)] st = Some st'
      ∧ Canvas.log st'
        = Canvas.log st ++ drawPrologue ++ drawnPlain ++ drawnFlipped ++ drawEpilogue
      ∧ blits (Canvas.log st') = blits (Canvas.log st) ++ [context; context]).
Proof.
  intros Hframe Hanimate Hanimated HdynF HdynP Hid Hflips Hne Hst
         animatedTile frame context Hpos Hset flips source cellFlipped cellPlain final.
  intros drawnFlipped drawnPlain.
  set (st0 := Canvas.mk (Canvas.base st) (Canvas.animatedTiles st) (Canvas.tiles st)
                (Canvas.cells st) (Canvas.log st ++ drawPrologue)).
  assert (Hst0 : unflipped st0) by exact Hst.
  assert (Hlen : (0 <? length flips)%nat = true).
  { apply Nat.ltb_lt. subst flips. destruct (getFlipped _ _); [contradiction|simpl; lia]. }
  assert (HoneF : ∀ s, Renderer.animateTiles (Canvas.base s) = true →
            drawVisibleTile map game (Transformed flipped) flippedIndex s
            = Some (drawAnimatedTile map game tile flippedIndex flips s)).
  { intros s Hs. unfold drawVisibleTile, visibleTileId. fold flips.
    rewrite Hlen. simpl. now rewrite Hid, Hs, Hanimated. }
  assert (HoneP : ∀ s, Renderer.animateTiles (Canvas.base s) = true →
            drawVisibleTile map game (TileNumber tile) plainIndex s
            = Some (drawAnimatedTile map game tile plainIndex [] s)).
  { intros s Hs. unfold drawVisibleTile, visibleTileId.
    assert (getFlipped map (TileNumber tile) = []) as ->.
    { unfold getFlipped. now destruct (Map.isFlipped map (TileNumber tile)). }
    simpl. now rewrite Hs, Hanimated. }
  assert (HdrawnF : List.map (pair context) (drawImage tileset source cellFlipped flips)
                    = drawnFlipped).
  { subst drawnFlipped.
    now rewrite (drawImage_with_flips tileset source cellFlipped flips Hflips). }
  assert (HcellF : ∀ s, Canvas.base s = Canvas.base st →
            cellGeometry map flippedIndex flips s = cellFlipped).
  { intros s Hs. unfold cellGeometry. rewrite Hlen, Hs.
    now destruct (Canvas.cells s !! flippedIndex). }
  assert (HblitsF : blits drawnFlipped = [context]).
  { rewrite <- HdrawnF. apply blits_drawImage. }
  split.
  - (* the flipped copy is visited first *)
    destruct (drawAnimatedTile_draws map game tile flippedIndex flips tileset st0
                Hanimate HdynF Hst0 Hpos Hset)
      as (Hb1 & Ht1 & Hc1 & Hl1 & Hu1 & Hi1 & Hh1).
    change (animatedTileOf map tile st0) with animatedTile in Hi1, Hh1, Hl1, Ht1.
    fold frame in Ht1, Hl1. fold context in Hl1.
    set (st1 := drawAnimatedTile map game tile flippedIndex flips st0) in *.
    assert (Ha1 : Renderer.animateTiles (Canvas.base st1) = true) by now rewrite Hb1.
    assert (Hpos1 : 0 ≤ Tile.id (animatedTileOf map tile st1) + 1) by now rewrite Hi1.
    assert (Hset1 : Map.getTilesetFromId map (Tile.id (animatedTileOf map tile st1) + 1)
                    = Some tileset) by now rewrite Hi1.
    destruct (drawAnimatedTile_draws map game tile plainIndex [] tileset st1
                Ha1 HdynP Hu1 Hpos1 Hset1)
      as (Hb2 & _ & _ & Hl2 & _).
    set (st2 := drawAnimatedTile map game tile plainIndex [] st1) in *.
    rewrite Hi1, Hh1 in Hl2. fold frame context in Hl2.
    assert (Hsource : tileGeometry tileset frame st1 = source).
    { unfold tileGeometry at 1. rewrite Ht1. now rewrite lookup_insert_eq. }
    assert (Hcell : cellGeometry map plainIndex [] st1 = cellPlain).
    { unfold cellGeometry. rewrite Hb1, Hc1, lookup_insert_ne by exact Hne. reflexivity. }
    rewrite Hsource, Hcell, drawImage_no_flips, Hl1 in Hl2.
    rewrite (HcellF st0 eq_refl) in Hl2. simpl in Hl2.
    change (tileGeometry tileset frame st0) with source in Hl2.
    rewrite HdrawnF in Hl2.
    eexists. rewrite (draw_unfold map game _ st Hframe). fold st0. simpl.
    rewrite (HoneF st0 Hanimate). simpl. fold st1.
    rewrite (HoneP st1 Ha1). simpl. fold st2.
    split; [reflexivity|]. simpl. rewrite Hl2. split.
    + rewrite <- !app_assoc. reflexivity.
    + rewrite !blits_app, HblitsF. unfold blits. simpl.
      rewrite !app_nil_r, <- !app_assoc. reflexivity.
  - (* the plain copy is visited first *)
    destruct (drawAnimatedTile_draws map game tile plainIndex [] tileset st0
                Hanimate HdynP Hst0 Hpos Hset)
      as (Hb1 & Ht1 & Hc1 & Hl1 & Hu1 & Hi1 & Hh1).
    change (animatedTileOf map tile st0) with animatedTile in Hi1, Hh1, Hl1, Ht1.
    fold frame in Ht1, Hl1. fold context in Hl1.
    set (st1 := drawAnimatedTile map game tile plainIndex [] st0) in *.
    assert (Ha1 : Renderer.animateTiles (Canvas.base st1) = true) by now rewrite Hb1.
    assert (Hpos1 : 0 ≤ Tile.id (animatedTileOf map tile st1) + 1) by now rewrite Hi1.
    assert (Hset1 : Map.getTilesetFromId map (Tile.id (animatedTileOf map tile st1) + 1)
                    = Some tileset) by now rewrite Hi1.
    destruct (drawAnimatedTile_draws map game tile flippedIndex flips tileset st1
                Ha1 HdynF Hu1 Hpos1 Hset1)
      as (Hb2 & _ & _ & Hl2 & _).
    set (st2 := drawAnimatedTile map game tile flippedIndex flips st1) in *.
    rewrite Hi1, Hh1 in Hl2. fold frame context in Hl2.
    assert (Hsource : tileGeometry tileset frame st1 = source).
    { unfold tileGeometry at 1. rewrite Ht1. now rewrite lookup_insert_eq. }
    rewrite Hsource, (HcellF st1 Hb1), HdrawnF, Hl1 in Hl2.
    rewrite drawImage_no_flips in Hl2. simpl in Hl2.
    change (tileGeometry tileset frame st0) with source in Hl2.
    change (cellGeometry map plainIndex [] st0) with cellPlain in Hl2.
    eexists. rewrite (draw_unfold map game _ st Hframe). fold st0. simpl.
    rewrite (HoneP st0 Hanimate). simpl. fold st1.
    rewrite (HoneF st1 Ha1). simpl. fold st2.
    split; [reflexivity|]. simpl. rewrite Hl2. split.
    + rewrite <- !app_assoc. reflexivity.
    + rewrite !blits_app, HblitsF. unfold blits. simpl.
      rewrite !app_nil_r, <- !app_assoc. reflexivity.
Qed.

(** The theorem in the sample world: the animated tile id 9, flipped
    horizontally at map index 1 and plain at map index 12, in the first
    frame. *)
Lemma draw_flipped_and_plain_animated_tile_witness :
  let flipped := TransformedTile.mk 9 true false false in
  (Renderer.hasRenderedFrame (Canvas.base Sample.start) = false
   ∧ Renderer.animateTiles (Canvas.base Sample.start) = true
   ∧ Map.isAnimatedTile Sample.map 9 = true
   ∧ Map.dynamicAnimatedTiles Sample.map 1 = false
   ∧ Map.dynamicAnimatedTiles Sample.map 12 = false
   ∧ getFlipped Sample.map (Transformed flipped) = [TileFlip.Horizontal]
   ∧ Map.getTilesetFromId Sample.map 10 = Some Sample.tileset)
  ∧ ∃ st',
      draw Sample.map Sample.game
        [(Transformed flipped, 1); (TileNumber 9, 12)] Sample.start = Some st'
      ∧ blits (Canvas.log st') = [backContext; backContext].
Proof.
  intros flipped. split; [repeat split|].
  destruct (draw_flipped_and_plain_animated_tile Sample.map Sample.game 9 flipped 1 12
              Sample.tileset Sample.start)
    as [(st' & Hdraw & _ & Hblits) _];
    [reflexivity | reflexivity | reflexivity | reflexivity | reflexivity | reflexivity
    | discriminate | lia | apply unflipped_init | vm_compute; discriminate | reflexivity | ].
  exists st'. split; [exact Hdraw|exact Hblits].
Defined.

(** * More of the renderer *)

(** ** The lists [getFlipped] builds *)

(** X1. [getFlipped] builds a sublist of [[Vertical; Diagonal; Horizontal]],
    in that order: no flag twice, at most one Diagonal, never more than three
    entries.  It is empty for a tile that is a plain number, and for a tile
    the Map does not take for flipped. *)
Theorem getFlipped_shape {Animation : Type} (map : Map.t Animation) (tile : ClientTile) :
  getFlipped map tile
    `sublist_of` [TileFlip.Vertical; TileFlip.Diagonal; TileFlip.Horizontal]
  ∧ (diagonals (getFlipped map tile) ≤ 1)%nat
  ∧ (length (getFlipped map tile) ≤ 3)%nat
  ∧ (Map.isFlipped map tile = false ∨ (∃ n, tile = TileNumber n) →
     getFlipped map tile = []).
Proof.
  assert (Hcases : Map.isFlipped map tile = false ∨ (∃ n, tile = TileNumber n) →
                   getFlipped map tile = []).
  { unfold getFlipped. intros [->|[n ->]]; [reflexivity|].
    now destruct (Map.isFlipped map (TileNumber n)). }
  assert (Hsub : getFlipped map tile
            `sublist_of` [TileFlip.Vertical; TileFlip.Diagonal; TileFlip.Horizontal]).
  { unfold getFlipped.
    destruct (Map.isFlipped map tile); simpl; [|apply sublist_nil_l].
    destruct tile as [n|[id h v d]]; simpl; [apply sublist_nil_l|].
    destruct v, d, h; simpl;
      solve [eauto 10 using sublist_nil, sublist_skip, sublist_cons]. }
  split; [exact Hsub|]. split; [|split; [|exact Hcases]].
  - unfold getFlipped.
    destruct (Map.isFlipped map tile); simpl; [|unfold diagonals; simpl; lia].
    destruct tile as [n|[id h v d]]; simpl; [unfold diagonals; simpl; lia|].
    destruct v, d, h; unfold diagonals; simpl; lia.
  - apply sublist_length in Hsub. simpl in Hsub. exact Hsub.
Qed.

(** The theorem on a record with all three flags, in the sample world. *)
Lemma getFlipped_shape_witness :
  getFlipped Sample.map (Transformed (TransformedTile.mk 5 true true true))
  = [TileFlip.Vertical; TileFlip.Diagonal; TileFlip.Horizontal]
  ∧ (diagonals (getFlipped Sample.map
                  (Transformed (TransformedTile.mk 5 true true true))) ≤ 1)%nat.
Proof.
  split; [reflexivity|].
  exact (proj1 (proj2 (getFlipped_shape Sample.map
                         (Transformed (TransformedTile.mk 5 true true true))))).
Defined.

(** One turn of the loop of [drawImage], and its end, as rewriting steps. *)
Ltac drawImage_loop_run :=
  repeat (rewrite drawImage_loop_continue by (simpl; lia);
          unfold drawImage_body at 1; simpl);
  rewrite drawImage_loop_leave by (simpl; lia); simpl.

(** X2. [drawImage] on a list that [getFlipped] built: the loop ends with
    that list and, when the list has a Diagonal, one more entry after it:
    Horizontal when the list has a Horizontal, Vertical when it has none.
    Without a Diagonal the loop pushes nothing. *)
Theorem drawImage_loop_getFlipped {Animation : Type} (map : Map.t Animation)
    (tile : ClientTile) (cell : RendererCell.t) :
  let flips := getFlipped map tile in
  Loop.flips (drawImage_loop cell (RendererCell.dx cell) (drawImage_entry cell flips))
  = flips
    ++ (if decide (TileFlip.Diagonal ∈ flips)
        then [if decide (TileFlip.Horizontal ∈ flips)
              then TileFlip.Horizontal else TileFlip.Vertical]
        else []).
Proof.
  unfold getFlipped, drawImage_entry.
  destruct (Map.isFlipped map tile); simpl;
    [|now rewrite drawImage_loop_leave by (simpl; lia)].
  destruct tile as [n|[id h v d]]; simpl;
    [now rewrite drawImage_loop_leave by (simpl; lia)|].
  destruct v, d, h; simpl; drawImage_loop_run; reflexivity.
Qed.

(** ** Saving and restoring the drawing contexts *)

Lemma saves_app (context : Context) (l k : list (Context * ContextCall)) :
  saves context (l ++ k) = (saves context l + saves context k)%nat.
Proof. unfold saves. now rewrite List.filter_app, length_app. Qed.

Lemma restores_app (context : Context) (l k : list (Context * ContextCall)) :
  restores context (l ++ k) = (restores context l + restores context k)%nat.
Proof. unfold restores. now rewrite List.filter_app, length_app. Qed.

Lemma transformCalls_keep_state (context on : Context) (cell : RendererCell.t)
    (flips : list Z) :
  saves context (List.map (pair on) (flat_map (transformCalls cell) flips)) = 0%nat
  ∧ restores context (List.map (pair on) (flat_map (transformCalls cell) flips)) = 0%nat.
Proof.
  induction flips as [|flip flips [IHs IHr]]; [split; reflexivity|].
  simpl. rewrite List.map_app, saves_app, restores_app, IHs, IHr.
  destruct flip as [|[[]|[]|]|]; split; reflexivity.
Qed.

(** X3. [drawImage] brackets its transforms.  With flips its first call is
    [save] and its last is [restore], and there is no other [save] or
    [restore] among its calls, however many entries the loop pushes; without
    flips it neither saves nor restores.  Either way it blits once.  So on
    every context the calls of one [drawImage] save as often as they
    restore. *)
Theorem drawImage_brackets_transforms (context on : Context) (image : Tileset.t)
    (tile : RendererTile.t) (cell : RendererCell.t) (flips : list Z) :
  let calls := drawImage image tile cell flips in
  let log := List.map (pair on) calls in
  let bracket := if Context_eqb on context && (0 <? length flips)%nat then 1%nat else 0%nat in
  saves context log = bracket
  ∧ restores context log = bracket
  ∧ blits log = [on]
  ∧ (flips ≠ [] → head calls = Some save ∧ last calls = Some restore).
Proof.
  intros calls log bracket. subst calls log bracket.
  split; [|split; [|split; [apply blits_drawImage|]]].
  - destruct flips as [|flip flips]; [now rewrite andb_false_r|].
    rewrite (drawImage_with_flips image tile cell (flip :: flips)) by discriminate.
    change (0 <? length (flip :: flips))%nat with true. rewrite andb_true_r.
    simpl List.map. rewrite List.map_app.
    change (?x :: ?l ++ ?k) with ([x] ++ l ++ k).
    rewrite !saves_app, (proj1 (transformCalls_keep_state context on cell _)).
    unfold saves. simpl. destruct (Context_eqb on context); reflexivity.
  - destruct flips as [|flip flips]; [now rewrite andb_false_r|].
    rewrite (drawImage_with_flips image tile cell (flip :: flips)) by discriminate.
    change (0 <? length (flip :: flips))%nat with true. rewrite andb_true_r.
    simpl List.map. rewrite List.map_app.
    change (?x :: ?l ++ ?k) with ([x] ++ l ++ k).
    rewrite !restores_app, (proj2 (transformCalls_keep_state context on cell _)).
    unfold restores. simpl. destruct (Context_eqb on context); reflexivity.
  - intros Hflips. rewrite (drawImage_with_flips image tile cell flips Hflips).
    split; [reflexivity|].
    rewrite app_comm_cons.
    match goal with |- context [?l ++ [?b; ?r]] =>
      change (l ++ [b; r]) with (l ++ [b] ++ [r]) end.
    rewrite app_assoc. apply last_snoc.
Qed.

(** The theorem on the list [[Diagonal]], whose loop pushes a Vertical. *)
Lemma drawImage_brackets_transforms_witness :
  let calls :=
    drawImage Sample.tileset (computeTile 16 Sample.tileset 5)
      (RendererCell.mk 16 32 16 16) [TileFlip.Diagonal] in
  [TileFlip.Diagonal] ≠ []
  ∧ head calls = Some save ∧ last calls = Some restore
  ∧ saves backContext (List.map (pair backContext) calls) = 1%nat.
Proof.
  intros calls. split; [discriminate|].
  destruct (drawImage_brackets_transforms backContext backContext Sample.tileset
              (computeTile 16 Sample.tileset 5) (RendererCell.mk 16 32 16 16)
              [TileFlip.Diagonal]) as (Hsaves & _ & _ & Hends).
  destruct (Hends ltac:(discriminate)) as [Hhead Hlast].
  split; [exact Hhead|]. split; [exact Hlast|exact Hsaves].
Defined.

(** ** What a frame adds to the log *)

Section Segments.
Context {R : Type} `{!Renderer.t R} {Animation : Type}.
Variable map : Map.t Animation.
Variable game : Game.t.

Implicit Type st : Canvas.t R Animation.

Lemma drawTile_segment (context : Context) (tileId index : Z) (flips : list Z) st :
  ∃ segment,
    Canvas.log (drawTile map context tileId index flips st) = Canvas.log st ++ segment
    ∧ (segment = [] ∨ ∃ image tile cell,
         segment = List.map (pair context) (drawImage image tile cell flips)).
Proof.
  destruct (Z.lt_ge_cases tileId 0) as [Hneg|Hpos].
  - exists []. rewrite drawTile_negative by exact Hneg.
    split; [now rewrite app_nil_r|now left].
  - destruct (Map.getTilesetFromId map tileId) as [tileset|] eqn:Hset.
    + rewrite (drawTile_draws map context tileId index flips tileset st Hpos Hset).
      simpl. eexists. split; [reflexivity|]. right. now do 3 eexists.
    + exists []. rewrite drawTile_no_tileset by exact Hset.
      split; [now rewrite app_nil_r|now left].
Qed.

Lemma animatedTileAt_keeps (tile index : Z) st :
  let st' := fst (animatedTileAt map game tile index st) in
  Canvas.log st' = Canvas.log st
  ∧ Canvas.tiles st' = Canvas.tiles st
  ∧ Canvas.cells st' = Canvas.cells st
  ∧ Canvas.base st' = Canvas.base st.
Proof.
  unfold animatedTileAt.
  set (identifier := (if Map.dynamicAnimatedTiles map index
                      then inr (tile, index) else inl tile) : Identifier).
  destruct (Canvas.animatedTiles st !! identifier) as [found|] eqn:Hfound.
  - rewrite Hfound. repeat split.
  - set (st1 := addAnimatedTile map tile
                  (if Map.dynamicAnimatedTiles map index then index else -1) st).
    assert (Hkeep : Canvas.log st1 = Canvas.log st
                    ∧ Canvas.tiles st1 = Canvas.tiles st
                    ∧ Canvas.cells st1 = Canvas.cells st
                    ∧ Canvas.base st1 = Canvas.base st) by repeat split.
    destruct (Canvas.animatedTiles st1 !! identifier); exact Hkeep.
Qed.

(** [drawAnimatedTile] draws on the foreground or on the background, by the
    layer stored in the animated tile. *)
Lemma drawAnimatedTile_segment (tile index : Z) (flips : list Z) st :
  ∃ segment,
    Canvas.log (drawAnimatedTile map game tile index flips st) = Canvas.log st ++ segment
    ∧ (segment = [] ∨ ∃ context image source cell,
         context ≠ overlayContext
         ∧ segment = List.map (pair context) (drawImage image source cell flips)).
Proof.
  unfold drawAnimatedTile. destruct (negb _).
  { exists []. split; [now rewrite app_nil_r|now left]. }
  destruct (animatedTileAt_keeps tile index st) as (Hlog & _).
  destruct (animatedTileAt map game tile index st) as [st1 [animatedTile|]];
    simpl in Hlog.
  - destruct (doubleDraw flips animatedTile).
    { exists []. split; [now rewrite app_nil_r, Hlog|now left]. }
    destruct (drawTile_segment
                (if Tile.isHighTile animatedTile then foreContext else backContext)
                (Tile.id animatedTile + 1) index flips st1)
      as (segment & Hsegment & Hshape).
    exists segment. rewrite Hsegment, Hlog. split; [reflexivity|].
    destruct Hshape as [->|(image & source & cell & ->)]; [now left|].
    right. do 4 eexists. split; [|reflexivity].
    now destruct (Tile.isHighTile animatedTile).
  - exists []. split; [now rewrite app_nil_r, Hlog|now left].
Qed.

Lemma drawVisibleTile_segment (tile : ClientTile) (index : Z) st st' :
  drawVisibleTile map game tile index st = Some st' →
  ∃ segment, Canvas.log st' = Canvas.log st ++ segment ∧ tileSegment segment.
Proof.
  unfold drawVisibleTile. destruct (visibleTileId map tile) as [id|]; simpl;
    [|discriminate].
  destruct (_ && _); intros [= <-].
  - destruct (drawAnimatedTile_segment id index (getFlipped map tile) st)
      as (segment & Hlog & [->|(context & image & source & cell & _ & ->)]);
      eexists; (split; [exact Hlog|constructor]).
  - destruct (drawTile_segment (tileContext map game id) id index
                (getFlipped map tile) st)
      as (segment & Hlog & [->|(image & source & cell & ->)]);
      eexists; (split; [exact Hlog|constructor]).
Qed.

Lemma forEachVisibleTile_segments (visible : list (ClientTile * Z)) st st' :
  forEachVisibleTile map game visible st = Some st' →
  ∃ segments,
    Canvas.log st' = Canvas.log st ++ concat segments
    ∧ Forall tileSegment segments
    ∧ length segments = length visible.
Proof.
  revert st. induction visible as [|[tile index] visible IH]; intros st; simpl.
  - intros [= <-]. exists []. simpl. now rewrite app_nil_r.
  - destruct (drawVisibleTile map game tile index st) as [st1|] eqn:Hone; simpl;
      [|discriminate].
    intros Hrest.
    destruct (drawVisibleTile_segment tile index st st1 Hone) as (segment & Hlog1 & Hseg).
    destruct (IH st1 Hrest) as (segments & Hlog & Hall & Hlen).
    exists (segment :: segments). simpl.
    rewrite Hlog, Hlog1, <- app_assoc. repeat split; [now constructor|now rewrite Hlen].
Qed.

Lemma tileSegment_balanced (context : Context) (segment : list (Context * ContextCall)) :
  tileSegment segment →
  saves context segment = restores context segment
  ∧ (length (blits segment) ≤ 1)%nat.
Proof.
  intros [|on image tile cell flips]; [split; [reflexivity|simpl; lia]|].
  pose proof (transformCalls_keep_state context on cell) as Hkeep.
  rewrite blits_drawImage. split; [|simpl; lia].
  destruct flips as [|flip flips]; [reflexivity|].
  rewrite (drawImage_with_flips image tile cell (flip :: flips)) by discriminate.
  simpl List.map. rewrite List.map_app.
  change (?x :: ?l ++ ?k) with ([x] ++ l ++ k).
  rewrite !saves_app, !restores_app.
  rewrite (proj1 (Hkeep _)), (proj2 (Hkeep _)).
  unfold saves, restores. simpl. destruct (Context_eqb on context); reflexivity.
Qed.

Lemma segments_balanced (context : Context)
    (segments : list (list (Context * ContextCall))) :
  Forall tileSegment segments →
  saves context (concat segments) = restores context (concat segments)
  ∧ (length (blits (concat segments)) ≤ length segments)%nat.
Proof.
  induction 1 as [|segment segments Hseg _ [IHb IHn]]; [split; [reflexivity|simpl; lia]|].
  simpl. rewrite saves_app, restores_app, blits_app, length_app.
  destruct (tileSegment_balanced context segment Hseg) as [Hb Hn]. lia.
Qed.

End Segments.

(** X4. A frame leaves every drawing context as deep in saved states as it
    found it: whatever [render] adds to the log saves a context as often as
    it restores it (the two saves of [saveDrawing] are met by the two
    restores of [restoreDrawing], and every flipped tile restores what it
    saved), and it blits at most once for each visible tile. *)
Theorem render_balances_contexts {R : Type} `{!Renderer.t R} {Animation : Type}
    (map : Map.t Animation) (game : Game.t) (visible : list (ClientTile * Z))
    (st st' : Canvas.t R Animation) :
  render map game visible st = Some st' →
  ∃ added,
    Canvas.log st' = Canvas.log st ++ added
    ∧ (∀ context, saves context added = restores context added)
    ∧ (length (blits added) ≤ length visible)%nat.
Proof.
  unfold render. destruct (Renderer.stopRendering _).
  { intros [= <-]. exists []. rewrite app_nil_r. repeat split. simpl. lia. }
  destruct (Renderer.hasRenderedFrame
              (Canvas.base (Canvas.set_base (Renderer.render (Canvas.base st)) st)))
    eqn:Hframe.
  { unfold draw. rewrite Hframe. intros [= <-]. exists []. simpl.
    rewrite app_nil_r. repeat split. simpl. lia. }
  rewrite (draw_unfold map game visible _ Hframe). simpl.
  destruct (forEachVisibleTile map game visible _) as [st1|] eqn:Htiles; simpl;
    [|discriminate].
  intros [= <-]. simpl.
  destruct (forEachVisibleTile_segments map game visible _ st1 Htiles)
    as (segments & Hlog & Hall & Hlen).
  simpl in Hlog. exists (drawPrologue ++ concat segments ++ drawEpilogue).
  split; [rewrite Hlog, <- !app_assoc; reflexivity|]. split.
  - intros context.
    destruct (segments_balanced context segments Hall) as [Hbalanced _].
    rewrite !saves_app, !restores_app.
    assert (Hframe_calls :
              (saves context drawPrologue + saves context drawEpilogue
               = restores context drawPrologue + restores context drawEpilogue)%nat)
      by (destruct context; reflexivity).
    lia.
  - destruct (segments_balanced backContext segments Hall) as [_ Hcount].
    rewrite !blits_app, !length_app. unfold blits at 1 3. simpl. lia.
Qed.

(** The theorem on a frame of the sample world with a flipped tile. *)
Lemma render_balances_contexts_witness :
  ∃ st' added,
    render Sample.map Sample.game
      [(Transformed (TransformedTile.mk 5 true false true), 3); (TileNumber 7, 4)]
      Sample.start = Some st'
    ∧ Canvas.log st' = Canvas.log Sample.start ++ added
    ∧ saves backContext added = restores backContext added.
Proof.
  destruct (render Sample.map Sample.game
              [(Transformed (TransformedTile.mk 5 true false true), 3); (TileNumber 7, 4)]
              Sample.start) as [st'|] eqn:Hrender;
    [|vm_compute in Hrender; discriminate Hrender].
  destruct (render_balances_contexts Sample.map Sample.game _ Sample.start st' Hrender)
    as (added & Hlog & Hbalanced & _).
  exists st', added. split; [reflexivity|]. split; [exact Hlog|apply Hbalanced].
Defined.

(** X5. An animated tile is never drawn on the overlay.  When tile
    animation is on and the Map marks the tile id as animated, [draw] hands
    the tile to [drawAnimatedTile], which draws on the foreground or on the
    background by the layer stored in the animated tile: no call goes to the
    overlay context, also when an overlay is active and the Map classifies
    the tile id as a light tile. *)
Theorem drawVisibleTile_animated_not_on_overlay
    {R : Type} `{!Renderer.t R} {Animation : Type}
    (map : Map.t Animation) (game : Game.t) (visible : ClientTile)
    (tile index : Z) (st : Canvas.t R Animation) :
  visibleTileId map visible = Some tile →
  Renderer.animateTiles (Canvas.base st) = true →
  Map.isAnimatedTile map tile = true →
  ∃ st' added,
    drawVisibleTile map game visible index st = Some st'
    ∧ Canvas.log st' = Canvas.log st ++ added
    ∧ Forall (λ entry, fst entry ≠ overlayContext) added
    ∧ (length (blits added) ≤ 1)%nat.
Proof.
  intros Hvisible Hanimate Hanimated.
  destruct (drawAnimatedTile_segment map game tile index (getFlipped map visible) st)
    as (added & Hlog & Hshape).
  exists (drawAnimatedTile map game tile index (getFlipped map visible) st), added.
  split.
  { unfold drawVisibleTile. rewrite Hvisible. simpl. now rewrite Hanimate, Hanimated. }
  split; [exact Hlog|].
  destruct Hshape as [->|(context & image & source & cell & Hcontext & ->)].
  - split; [constructor|simpl; lia].
  - rewrite blits_drawImage. split; [|simpl; lia].
    apply List.Forall_forall. intros entry Hin.
    apply List.in_map_iff in Hin. destruct Hin as (call & <- & _). exact Hcontext.
Qed.

(** The theorem in the sample world with its overlay active, on a tile id
    that is animated. *)
Lemma drawVisibleTile_animated_not_on_overlay_witness :
  (visibleTileId Sample.map (TileNumber 9) = Some 9
   ∧ Renderer.animateTiles (Canvas.base Sample.start) = true
   ∧ Map.isAnimatedTile Sample.map 9 = true
   ∧ Game.hasOverlay Sample.gameWithOverlay = true)
  ∧ ∃ st' added,
      drawVisibleTile Sample.map Sample.gameWithOverlay (TileNumber 9) 12 Sample.start
      = Some st'
      ∧ Canvas.log st' = Canvas.log Sample.start ++ added
      ∧ Forall (λ entry, fst entry ≠ overlayContext) added.
Proof.
  split; [repeat split|].
  destruct (drawVisibleTile_animated_not_on_overlay Sample.map Sample.gameWithOverlay
              (TileNumber 9) 9 12 Sample.start)
    as (st' & added & Hdraw & Hlog & Hnot & _); [reflexivity..|].
  exists st', added. split; [exact Hdraw|]. split; [exact Hlog|exact Hnot].
Defined.

(** ** What a frame keeps *)

Section Grows.
Context {R : Type} `{!Renderer.t R} {Animation : Type}.
Variable map : Map.t Animation.
Variable game : Game.t.

Implicit Type st : Canvas.t R Animation.

Lemma grows_refl st : grows st st.
Proof. repeat split; reflexivity. Qed.

Lemma grows_trans st st' st'' : grows st st' → grows st' st'' → grows st st''.
Proof.
  intros (Ht & Hc & Ha) (Ht' & Hc' & Ha').
  split; [now transitivity (Canvas.tiles st')|]. split; set_solver.
Qed.

Lemma grows_drawTile (context : Context) (tileId index : Z) (flips : list Z) st :
  grows st (drawTile map context tileId index flips st).
Proof.
  destruct (Z.lt_ge_cases tileId 0) as [Hneg|Hpos].
  { rewrite drawTile_negative by exact Hneg. apply grows_refl. }
  destruct (Map.getTilesetFromId map tileId) as [tileset|] eqn:Hset.
  - rewrite (drawTile_draws map context tileId index flips tileset st Hpos Hset).
    split; [|split]; simpl.
    + unfold tileGeometry.
      destruct (Canvas.tiles st !! tileId) as [cached|] eqn:Hcached.
      * now rewrite insert_id.
      * now apply insert_subseteq.
    + rewrite dom_insert. set_solver.
    + reflexivity.
  - rewrite drawTile_no_tileset by exact Hset. apply grows_refl.
Qed.

Lemma grows_animatedTileAt (tile index : Z) st :
  grows st (fst (animatedTileAt map game tile index st)).
Proof.
  destruct (animatedTileAt_keeps map game tile index st) as (_ & Ht & Hc & _).
  split; [now rewrite Ht|]. split; [now rewrite Hc|].
  unfold animatedTileAt.
  set (identifier := (if Map.dynamicAnimatedTiles map index
                      then inr (tile, index) else inl tile) : Identifier).
  destruct (Canvas.animatedTiles st !! identifier) as [found|] eqn:Hfound.
  - rewrite Hfound. simpl. rewrite dom_insert. set_solver.
  - set (st1 := addAnimatedTile map tile
                  (if Map.dynamicAnimatedTiles map index then index else -1) st).
    assert (Hadd : dom (Canvas.animatedTiles st) ⊆ dom (Canvas.animatedTiles st1)).
    { subst st1. unfold addAnimatedTile, resetAnimatedTiles. simpl.
      rewrite dom_fmap, dom_insert. set_solver. }
    destruct (Canvas.animatedTiles st1 !! identifier); simpl; [|exact Hadd].
    rewrite dom_insert. set_solver.
Qed.

Lemma grows_drawAnimatedTile (tile index : Z) (flips : list Z) st :
  grows st (drawAnimatedTile map game tile index flips st).
Proof.
  unfold drawAnimatedTile. destruct (negb _); [apply grows_refl|].
  pose proof (grows_animatedTileAt tile index st) as Hat.
  destruct (animatedTileAt map game tile index st) as [st1 [animatedTile|]];
    simpl in Hat; [|exact Hat].
  destruct (doubleDraw flips animatedTile); [exact Hat|].
  eapply grows_trans; [exact Hat|apply grows_drawTile].
Qed.

Lemma grows_forEachVisibleTile (visible : list (ClientTile * Z)) st st' :
  forEachVisibleTile map game visible st = Some st' → grows st st'.
Proof.
  revert st. induction visible as [|[tile index] visible IH]; intros st; simpl.
  - intros [= <-]. apply grows_refl.
  - unfold drawVisibleTile at 1.
    destruct (visibleTileId map tile) as [id|]; simpl; [|discriminate].
    destruct (_ && _); simpl; intros Hrest;
      (eapply grows_trans; [|exact (IH _ Hrest)]).
    + apply grows_drawAnimatedTile.
    + apply grows_drawTile.
Qed.

End Grows.

(** X6. A frame only adds to what the renderer remembers.  After [render],
    every Tile Geometry entry that was cached is still cached, with the same
    value; every map index that had a cell still has one; every animated
    tile identity that was registered still is.  (Only [resize] drops
    anything: the cells.) *)
Theorem render_grows {R : Type} `{!Renderer.t R} {Animation : Type}
    (map : Map.t Animation) (game : Game.t) (visible : list (ClientTile * Z))
    (st st' : Canvas.t R Animation) :
  render map game visible st = Some st' →
  grows st st'
  ∧ ∀ (tileId : Z) (cached : RendererTile.t),
      Canvas.tiles st !! tileId = Some cached →
      Canvas.tiles st' !! tileId = Some cached.
Proof.
  intros Hrender.
  assert (Hgrows : grows st st').
  { revert Hrender. unfold render. destruct (Renderer.stopRendering _).
    { intros [= <-]. apply grows_refl. }
    unfold draw. destruct (Renderer.hasRenderedFrame _).
    { intros [= <-]. exact (grows_refl st). }
    destruct (forEachVisibleTile map game visible _) as [st1|] eqn:Htiles; simpl;
      [|discriminate].
    intros [= <-]. exact (grows_forEachVisibleTile map game visible _ st1 Htiles). }
  split; [exact Hgrows|].
  intros tileId cached Hcached. destruct Hgrows as (Htiles & _).
  exact (lookup_weaken _ _ _ _ Hcached Htiles).
Qed.

(** The theorem in the sample world: the source rectangle of the tile id 5
    is cached, and a frame that shows the tile id 7 keeps it. *)
Lemma render_grows_witness :
  let st := drawTile Sample.map backContext 5 12 [] Sample.start in
  Canvas.tiles st !! 5 = Some (computeTile 16 Sample.tileset 5)
  ∧ ∃ st',
      render Sample.map Sample.game [(TileNumber 7, 3)] st = Some st'
      ∧ Canvas.tiles st' !! 5 = Some (computeTile 16 Sample.tileset 5).
Proof.
  intros st. split; [reflexivity|].
  destruct (render Sample.map Sample.game [(TileNumber 7, 3)] st)
    as [st'|] eqn:Hrender; [|vm_compute in Hrender; discriminate Hrender].
  exists st'. split; [reflexivity|].
  exact (proj2 (render_grows Sample.map Sample.game _ st st' Hrender) 5 _ eq_refl).
Defined.

(** ** The rules of the two caches in [drawTile] *)

(** X7. The cell of a map index that is already cached: [drawTile] without
    flips reuses it as it is (it is not computed again, and the blit goes
    onto the cached rectangle), while [drawTile] with flips replaces it by
    the cell computed from the current scale, at every call. *)
Theorem drawTile_cell_rule {R : Type} `{!Renderer.t R} {Animation : Type}
    (map : Map.t Animation) (context : Context) (tileId index : Z)
    (flips : list Z) (tileset : Tileset.t) (cached : RendererCell.t)
    (st : Canvas.t R Animation) :
  0 ≤ tileId →
  Map.getTilesetFromId map tileId = Some tileset →
  Canvas.cells st !! index = Some cached →
  let fresh :=
    computeCell (Renderer.actualTileSize (Canvas.base st)) (Map.width map) index in
  let source := tileGeometry tileset tileId st in
  let st' := drawTile map context tileId index flips st in
  (flips = [] →
   Canvas.cells st' = Canvas.cells st
   ∧ Canvas.log st'
     = Canvas.log st ++ List.map (pair context) (drawImage tileset source cached []))
  ∧ (flips ≠ [] →
     Canvas.cells st' = <[index := fresh]> (Canvas.cells st)
     ∧ Canvas.log st'
       = Canvas.log st ++ List.map (pair context) (drawImage tileset source fresh flips)).
Proof.
  intros Htile Hset Hcached fresh source st'. subst st'.
  rewrite (drawTile_draws map context tileId index flips tileset st Htile Hset).
  unfold cellGeometry. rewrite Hcached. simpl. split.
  - intros ->. simpl. split; [now apply insert_id|reflexivity].
  - intros Hflips. destruct flips as [|flip flips]; [contradiction|].
    simpl. split; reflexivity.
Qed.

(** The theorem in the sample world, on a cell cached at zoom 1 and read
    again, without a resize, at zoom 3: without flips the old cell stays,
    with a flip the cell of the new scale replaces it. *)
Lemma drawTile_cell_rule_witness :
  let cached := drawTile Sample.map backContext 5 12 [] Sample.start in
  let st := Canvas.set_base (Sample.mk 3 false) cached in
  (0 ≤ 5 ∧ Map.getTilesetFromId Sample.map 5 = Some Sample.tileset
   ∧ Canvas.cells st !! 12 = Some (RendererCell.mk 32 16 16 16))
  ∧ Canvas.cells (drawTile Sample.map backContext 5 12 [] st) = Canvas.cells st
  ∧ Canvas.cells (drawTile Sample.map backContext 5 12 [TileFlip.Horizontal] st)
    = <[12 := RendererCell.mk 96 48 48 48]> (Canvas.cells st).
Proof.
  intros cached st. split; [split; [lia|split; reflexivity]|].
  split.
  - exact (proj1 (proj1 (drawTile_cell_rule Sample.map backContext 5 12 []
                           Sample.tileset (RendererCell.mk 32 16 16 16) st
                           ltac:(lia) eq_refl eq_refl) eq_refl)).
  - exact (proj1 (proj2 (drawTile_cell_rule Sample.map backContext 5 12
                           [TileFlip.Horizontal]
                           Sample.tileset (RendererCell.mk 32 16 16 16) st
                           ltac:(lia) eq_refl eq_refl) ltac:(discriminate))).
Defined.

(** X8. [drawTile] touches one entry of each cache and nothing else: the
    base state and the animated tiles are as before, every Tile Geometry
    entry of another tile id and every cell of another map index is as
    before, and the log only gets longer. *)
Theorem drawTile_frame {R : Type} `{!Renderer.t R} {Animation : Type}
    (map : Map.t Animation) (context : Context) (tileId index : Z)
    (flips : list Z) (st : Canvas.t R Animation) (otherTile otherIndex : Z) :
  otherTile ≠ tileId →
  otherIndex ≠ index →
  let st' := drawTile map context tileId index flips st in
  Canvas.base st' = Canvas.base st
  ∧ Canvas.animatedTiles st' = Canvas.animatedTiles st
  ∧ Canvas.tiles st' !! otherTile = Canvas.tiles st !! otherTile
  ∧ Canvas.cells st' !! otherIndex = Canvas.cells st !! otherIndex
  ∧ Canvas.log st `prefix_of` Canvas.log st'.
Proof.
  intros Hother Hindex st'. subst st'.
  destruct (Z.lt_ge_cases tileId 0) as [Hneg|Hpos].
  { rewrite drawTile_negative by exact Hneg. now repeat (split; [reflexivity|]). }
  destruct (Map.getTilesetFromId map tileId) as [tileset|] eqn:Hset.
  - rewrite (drawTile_draws map context tileId index flips tileset st Hpos Hset).
    simpl. do 2 (split; [reflexivity|]). split; [|split].
    + now rewrite lookup_insert_ne by congruence.
    + now rewrite lookup_insert_ne by congruence.
    + now apply prefix_app_r.
  - rewrite drawTile_no_tileset by exact Hset. now repeat (split; [reflexivity|]).
Qed.

(** The theorem in the sample world: drawing the tile id 7 at map index 3
    leaves the entries of the tile id 5 and of the map index 12 alone. *)
Lemma drawTile_frame_witness :
  let st := drawTile Sample.map backContext 5 12 [] Sample.start in
  let st' := drawTile Sample.map foreContext 7 3 [TileFlip.Vertical] st in
  (5 ≠ 7 ∧ 12 ≠ 3)
  ∧ Canvas.tiles st' !! 5 = Canvas.tiles st !! 5
  ∧ Canvas.cells st' !! 12 = Canvas.cells st !! 12.
Proof.
  intros st st'. split; [split; discriminate|].
  destruct (drawTile_frame Sample.map foreContext 7 3 [TileFlip.Vertical] st 5 12
              ltac:(discriminate) ltac:(discriminate)) as (_ & _ & Htiles & Hcells & _).
  split; [exact Htiles|exact Hcells].
Defined.

(** ** Registering animated tiles *)

(** X9. [drawAnimatedTile] for an identity that is already registered only
    stamps its animated tile with the game time: every other animated tile
    is as before, and no frame index is reset (that happens only when a new
    identity is registered). *)
Theorem drawAnimatedTile_known_identity {R : Type} `{!Renderer.t R} {Animation : Type}
    (map : Map.t Animation) (game : Game.t) (tile index : Z) (flips : list Z)
    (registered : Tile.t Animation) (st : Canvas.t R Animation) :
  Renderer.animateTiles (Canvas.base st) = true →
  let identifier : Identifier :=
    if Map.dynamicAnimatedTiles map index then inr (tile, index) else inl tile in
  Canvas.animatedTiles st !! identifier = Some registered →
  Canvas.animatedTiles (drawAnimatedTile map game tile index flips st)
  = <[identifier := Tile.set_lastAccessed (Game.time game) registered]>
      (Canvas.animatedTiles st).
Proof.
  intros Hanimate identifier Hregistered.
  unfold drawAnimatedTile, animatedTileAt. rewrite Hanimate. simpl.
  fold identifier. rewrite Hregistered. rewrite Hregistered.
  destruct (doubleDraw flips _); [reflexivity|].
  now rewrite drawTile_animatedTiles.
Qed.

(** The theorem in the sample world: the tile ids 9 and 11 are registered,
    11 at frame 3; drawing 9 again leaves 11 at frame 3. *)
Lemma drawAnimatedTile_known_identity_witness :
  let nine := Tile.mk 9 (-1) tt false false 0 0 in
  let eleven := Tile.mk 11 (-1) tt false false 3 0 in
  let st :=
    Canvas.set_animatedTiles {[ inl 9 := nine; inl 11 := eleven ]} Sample.start in
  (Renderer.animateTiles (Canvas.base st) = true
   ∧ Canvas.animatedTiles st !! inl 9 = Some nine)
  ∧ Canvas.animatedTiles (drawAnimatedTile Sample.map Sample.game 9 12 [] st) !! inl 11
    = Some eleven
  ∧ Canvas.animatedTiles (drawAnimatedTile Sample.map Sample.game 9 12 [] st) !! inl 9
    = Some (Tile.mk 9 (-1) tt false false 0 1000).
Proof.
  intros nine eleven st. split; [split; reflexivity|].
  rewrite (drawAnimatedTile_known_identity Sample.map Sample.game 9 12 [] nine st)
    by reflexivity.
  split; reflexivity.
Defined.

(** X10. [drawAnimatedTile] for an identity that is not registered yet (the
    tile id, or the tile id at the map index when the Map marks the index as
    dynamically animated; a map index is never -1) registers it: afterwards
    the collection holds, under that identity, a tile with the tile id, the
    position (-1 for a tile id shared by all its positions), the animation
    and the layer the Map gives, not flagged as flipped, at frame 0 and
    stamped with the game time; and every tile that was registered before is
    there at frame 0. *)
Theorem drawAnimatedTile_new_identity {R : Type} `{!Renderer.t R} {Animation : Type}
    (map : Map.t Animation) (game : Game.t) (tile index : Z) (flips : list Z)
    (st : Canvas.t R Animation) :
  Renderer.animateTiles (Canvas.base st) = true →
  index ≠ -1 →
  let dynamic := Map.dynamicAnimatedTiles map index in
  let identifier : Identifier := if dynamic then inr (tile, index) else inl tile in
  Canvas.animatedTiles st !! identifier = None →
  Canvas.animatedTiles (drawAnimatedTile map game tile index flips st)
  = <[identifier :=
        Tile.mk tile (if dynamic then index else -1) (Map.getTileAnimation map tile)
          false (Map.isHighTile map tile) 0 (Game.time game)]>
      (Tile.set_animationIndex 0 <$> Canvas.animatedTiles st).
Proof.
  intros Hanimate Hindex dynamic identifier Hnew.
  assert (Hadded : (if (if dynamic then index else -1) =? -1
                    then inl tile else inr (tile, if dynamic then index else -1))
                   = identifier).
  { subst identifier. destruct dynamic; [|reflexivity].
    now rewrite (proj2 (Z.eqb_neq _ _) Hindex). }
  unfold drawAnimatedTile, animatedTileAt. rewrite Hanimate. simpl.
  fold dynamic. fold identifier. rewrite Hnew.
  unfold addAnimatedTile, resetAnimatedTiles. simpl. rewrite Hadded.
  rewrite lookup_fmap, lookup_insert_eq. simpl.
  rewrite fmap_insert, insert_insert_eq.
  destruct (doubleDraw flips _); simpl; [reflexivity|].
  now rewrite drawTile_animatedTiles.
Qed.

(** The theorem in the sample world: the tile id 9 at the map index 99,
    which the sample Map marks as dynamically animated, gets an animated
    tile of its own, and the shared tile of the tile id 9, which was at
    frame 4, goes back to frame 0. *)
Lemma drawAnimatedTile_new_identity_witness :
  let shared := Tile.mk 9 (-1) tt false false 4 0 in
  let st := Canvas.set_animatedTiles {[ inl 9 := shared ]} Sample.start in
  let st' := drawAnimatedTile Sample.map Sample.game 9 99 [] st in
  (Renderer.animateTiles (Canvas.base st) = true
   ∧ 99 ≠ -1
   ∧ Map.dynamicAnimatedTiles Sample.map 99 = true
   ∧ Canvas.animatedTiles st !! inr (9, 99) = None)
  ∧ Canvas.animatedTiles st' !! inr (9, 99) = Some (Tile.mk 9 99 tt false false 0 1000)
  ∧ Canvas.animatedTiles st' !! inl 9 = Some (Tile.mk 9 (-1) tt false false 0 0).
Proof.
  intros shared st st'. split; [repeat split; discriminate|].
  subst st'.
  rewrite (drawAnimatedTile_new_identity Sample.map Sample.game 9 99 [] st)
    by first [reflexivity | discriminate].
  split; reflexivity.
Defined.

(** * The entity base class *)

(** X14. [getDistance] is the taxicab distance between the grid cells of
    two entities: never negative, the same in both directions, zero exactly
    for two entities on the same cell, and never more by way of a third
    entity than the sum of the two legs. *)
Theorem getDistance_metric (a b c : Entity.t) :
  0 ≤ Entity.getDistance a b
  ∧ Entity.getDistance a b = Entity.getDistance b a
  ∧ (Entity.getDistance a b = 0
     ↔ Entity.gridX a = Entity.gridX b ∧ Entity.gridY a = Entity.gridY b)
  ∧ Entity.getDistance a c ≤ Entity.getDistance a b + Entity.getDistance b c.
Proof. unfold Entity.getDistance. repeat split; lia. Qed.

(** X15. [setGridPosition] puts the entity on a grid cell: the pixel
    position is the corner of the cell, so dividing it by the tile size and
    flooring gives the grid position back; the region is the one
    [Utils.getRegion] gives for the cell; and between two entities placed
    this way the pixel distance along the axes is the tile distance of
    [getDistance] times the tile size. *)
Theorem setGridPosition_on_grid (tileSize : Z) (getRegion : Z → Z → Z)
    (gx gy gx' gy' : Z) (e e' : Entity.t) :
  0 < tileSize →
  let placed := Entity.setGridPosition tileSize getRegion gx gy e in
  let placed' := Entity.setGridPosition tileSize getRegion gx' gy' e' in
  (Entity.gridX placed, Entity.gridY placed) = (gx, gy)
  ∧ (Entity.x placed / tileSize, Entity.y placed / tileSize) = (gx, gy)
  ∧ (Entity.x placed mod tileSize, Entity.y placed mod tileSize) = (0, 0)
  ∧ Entity.region placed = getRegion gx gy
  ∧ Z.abs (Entity.x placed - Entity.x placed') + Z.abs (Entity.y placed - Entity.y placed')
    = tileSize * Entity.getDistance placed placed'
  ∧ Entity.visible placed = Entity.visible e
  ∧ Entity.counter placed = Entity.counter e.
Proof.
  intros Hsize placed placed'. subst placed placed'.
  unfold Entity.setGridPosition, Entity.getDistance. simpl.
  rewrite !Z.div_mul, !Z.mod_mul by lia.
  repeat split. nia.
Qed.

(** The theorem for tiles of 16 pixels, on the cells (3, 4) and (5, 1). *)
Lemma setGridPosition_on_grid_witness :
  let placed := Entity.setGridPosition 16 (λ gx gy, gx + 100 * gy) 3 4 Entity.sample in
  let placed' := Entity.setGridPosition 16 (λ gx gy, gx + 100 * gy) 5 1 Entity.sample in
  0 < 16
  ∧ (Entity.x placed, Entity.y placed) = (48, 64)
  ∧ Z.abs (Entity.x placed - Entity.x placed') + Z.abs (Entity.y placed - Entity.y placed')
    = 16 * Entity.getDistance placed placed'.
Proof.
  intros placed placed'. split; [lia|]. split; [reflexivity|].
  destruct (setGridPosition_on_grid 16 (λ gx gy, gx + 100 * gy) 3 4 5 1
              Entity.sample Entity.sample ltac:(lia))
    as (_ & _ & _ & _ & Hdistance & _).
  exact Hdistance.
Defined.

(** X16. The countdown.  After [setCountdown(count)] with a count that is
    not negative, each firing of its interval takes one off the counter
    until it is 0; the counter never goes below 0; [hasCounter] holds until
    the [count]-th firing; and the firing after that, which finds the
    counter at 0, clears the interval and forgets its handle, so that no
    later firing does anything. *)
Theorem setCountdown_counts_down (count : Z) (handle : nat) (w : Entity.World) (k : nat) :
  0 ≤ count →
  let after := Nat.iter k (Entity.fire handle) (Entity.setCountdown count handle w) in
  Entity.counter (Entity.entity after) = Z.max 0 (count - Z.of_nat k)
  ∧ Entity.hasCounter (Entity.entity after) = (Z.of_nat k <? count)
  ∧ Entity.intervals after !! handle
    = (if Z.of_nat k <=? count then Some Entity.countdownCallback else None)
  ∧ Entity.counterInterval (Entity.entity after)
    = (if Z.of_nat k <=? count then Some handle else None).
Proof.
  intros Hcount after. subst after.
  assert (Hcounter : ∀ e, Entity.hasCounter e = (0 <? Entity.counter e)) by reflexivity.
  induction k as [|k (IHc & _ & IHi & IHh)].
  - change (Nat.iter 0 (Entity.fire handle) (Entity.setCountdown count handle w))
      with (Entity.setCountdown count handle w).
    change (Z.of_nat 0) with 0. rewrite Hcounter.
    unfold Entity.setCountdown.
    cbn [Entity.entity Entity.intervals Entity.counter Entity.counterInterval].
    rewrite lookup_insert_eq.
    destruct (Z.leb_spec 0 count); [|lia].
    repeat split; try lia.
  - rewrite Nat2Z.inj_succ. simpl Nat.iter.
    set (wk := Nat.iter k (Entity.fire handle) (Entity.setCountdown count handle w)) in *.
    unfold Entity.fire. rewrite IHi.
    destruct (Z.leb_spec (Z.of_nat k) count) as [Hle|Hgt].
    + unfold Entity.countdown. rewrite IHc, IHh.
      destruct (Z.leb_spec (Z.max 0 (count - Z.of_nat k)) 0) as [Hzero|Hmore];
        rewrite Hcounter;
        cbn [Entity.entity Entity.intervals Entity.counter Entity.counterInterval
             Entity.clearInterval].
      * rewrite lookup_delete_eq.
        destruct (Z.leb_spec (Z.succ (Z.of_nat k)) count); [lia|].
        repeat split; try lia.
        destruct (Z.ltb_spec 0 (Z.max 0 (count - Z.of_nat k)));
          destruct (Z.ltb_spec (Z.succ (Z.of_nat k)) count); lia.
      * rewrite IHi.
        destruct (Z.leb_spec (Z.succ (Z.of_nat k)) count); [|lia].
        repeat split; try lia.
        destruct (Z.ltb_spec 0 (Z.max 0 (count - Z.of_nat k) - 1));
          destruct (Z.ltb_spec (Z.succ (Z.of_nat k)) count); lia.
    + rewrite Hcounter, IHc, IHi, IHh.
      destruct (Z.leb_spec (Z.of_nat k) count); [lia|].
      destruct (Z.leb_spec (Z.succ (Z.of_nat k)) count); [lia|].
      repeat split; try lia.
      destruct (Z.ltb_spec 0 (Z.max 0 (count - Z.of_nat k)));
        destruct (Z.ltb_spec (Z.succ (Z.of_nat k)) count); lia.
Qed.

(** The theorem for a countdown from 3: after three firings the counter is
    0 and the interval still runs; the fourth firing clears it. *)
Lemma setCountdown_counts_down_witness :
  let start := Entity.setCountdown 3 7 (Entity.world Entity.sample ∅) in
  0 ≤ 3
  ∧ Entity.counter (Entity.entity (Nat.iter 3 (Entity.fire 7) start)) = 0
  ∧ Entity.intervals (Nat.iter 3 (Entity.fire 7) start) !! 7%nat
    = Some Entity.countdownCallback
  ∧ Entity.intervals (Nat.iter 4 (Entity.fire 7) start) !! 7%nat = None.
Proof.
  intros start. split; [lia|].
  destruct (setCountdown_counts_down 3 7 (Entity.world Entity.sample ∅) 3 ltac:(lia))
    as (Hcounter & _ & Hrunning & _).
  destruct (setCountdown_counts_down 3 7 (Entity.world Entity.sample ∅) 4 ltac:(lia))
    as (_ & _ & Hcleared & _).
  split; [exact Hcounter|]. split; [exact Hrunning|exact Hcleared].
Defined.

(** X17. Blinking.  After [blink], each firing of its interval flips the
    visibility, so after [k] firings the entity is visible exactly when it
    was visible before and [k] is even, or hidden before and [k] odd.
    [stopBlinking] then leaves the entity visible whatever [k] was, and
    clears the interval: no later firing of it changes anything. *)
Theorem stopBlinking_ends_visible (handle : nat) (w : Entity.World) (k j : nat) :
  handle ≠ 0%nat →
  let blinked := Nat.iter k (Entity.fire handle) (Entity.blink handle w) in
  let stopped := Entity.stopBlinking blinked in
  Entity.isVisible (Entity.entity blinked)
  = xorb (Entity.isVisible (Entity.entity w)) (Nat.odd k)
  ∧ Entity.isVisible (Entity.entity stopped) = true
  ∧ Entity.intervals stopped !! handle = None
  ∧ Nat.iter j (Entity.fire handle) stopped = stopped.
Proof.
  intros Hhandle blinked stopped.
  assert (Hblinked : Entity.isVisible (Entity.entity blinked)
                     = xorb (Entity.isVisible (Entity.entity w)) (Nat.odd k)
                     ∧ Entity.intervals blinked !! handle
                       = Some Entity.toggleVisibilityCallback
                     ∧ Entity.blinking (Entity.entity blinked) = Some handle).
  { subst blinked stopped. induction k as [|k (IHv & IHi & IHb)].
    - simpl. rewrite lookup_insert_eq, xorb_false_r. repeat split.
    - simpl Nat.iter.
      set (wk := Nat.iter k (Entity.fire handle) (Entity.blink handle w)) in *.
      assert (Hfire : Entity.fire handle wk
                      = Entity.world (Entity.toggleVisibility (Entity.entity wk))
                          (Entity.intervals wk))
        by (unfold Entity.fire; now rewrite IHi).
      rewrite Hfire. cbn [Entity.entity Entity.intervals].
      split; [|split; [exact IHi|exact IHb]].
      unfold Entity.isVisible in *. simpl. rewrite IHv, Nat.odd_succ, <- Nat.negb_odd.
      now destruct (Entity.visible (Entity.entity w)), (Nat.odd k). }
  destruct Hblinked as (Hvisible & Hrunning & Hblinking).
  split; [exact Hvisible|]. split; [reflexivity|].
  assert (Hcleared : Entity.intervals stopped !! handle = None).
  { subst stopped. unfold Entity.stopBlinking. rewrite Hblinking.
    rewrite (proj2 (Nat.eqb_neq _ _) Hhandle). simpl. apply lookup_delete_eq. }
  split; [exact Hcleared|].
  induction j as [|j IH]; [reflexivity|].
  simpl. rewrite IH. unfold Entity.fire. now rewrite Hcleared.
Qed.

(** The theorem for an entity that blinks three times and is then stopped. *)
Lemma stopBlinking_ends_visible_witness :
  let blinked :=
    Nat.iter 3 (Entity.fire 4) (Entity.blink 4 (Entity.world Entity.sample ∅)) in
  4%nat ≠ 0%nat
  ∧ Entity.isVisible (Entity.entity blinked) = false
  ∧ Entity.isVisible (Entity.entity (Entity.stopBlinking blinked)) = true
  ∧ Nat.iter 2 (Entity.fire 4) (Entity.stopBlinking blinked) = Entity.stopBlinking blinked.
Proof.
  intros blinked. split; [discriminate|].
  destruct (stopBlinking_ends_visible 4 (Entity.world Entity.sample ∅) 3 2
              ltac:(discriminate)) as (Hblinked & Hstopped & _ & Hquiet).
  split; [exact Hblinked|]. split; [exact Hstopped|exact Hquiet].
Defined.

(** X18. A countdown restarted while the earlier one is still running
    leaves the earlier interval running for good: [setCountdown] overwrites
    the handle it had stored, the callback only ever clears the handle that
    is stored, and so whatever intervals fire afterwards, in whatever order,
    the earlier interval is never cleared. *)
Theorem setCountdown_again_keeps_earlier_interval (count : Z) (earlier later : nat)
    (w : Entity.World) (fired : list nat) :
  Entity.intervals w !! earlier = Some Entity.countdownCallback →
  later ≠ earlier →
  Entity.intervals
    (fold_left (λ w handle, Entity.fire handle w) fired
       (Entity.setCountdown count later w))
  !! earlier = Some Entity.countdownCallback.
Proof.
  intros Hrunning Hlater.
  assert (Hkeeps : ∀ w',
            Entity.intervals w' !! earlier = Some Entity.countdownCallback
            ∧ Entity.counterInterval (Entity.entity w') ≠ Some earlier →
            Entity.intervals (fold_left (λ w handle, Entity.fire handle w) fired w')
            !! earlier = Some Entity.countdownCallback).
  { induction fired as [|handle fired IH]; intros w' [Hrun Hstored]; [exact Hrun|].
    simpl. apply IH. unfold Entity.fire.
    destruct (Entity.intervals w' !! handle) as [[|]|]; [now split| |now split].
    unfold Entity.countdown. destruct (Entity.counter (Entity.entity w') <=? 0); simpl.
    - split; [|discriminate].
      destruct (Entity.counterInterval (Entity.entity w')) as [stored|]; simpl;
        [|exact Hrun].
      rewrite lookup_delete_ne by congruence. exact Hrun.
    - now split. }
  apply Hkeeps. simpl. split.
  - rewrite lookup_insert_ne by exact Hlater. exact Hrunning.
  - congruence.
Qed.

(** The theorem for a countdown from 5 on the handle 1, restarted from 2 on
    the handle 2: after the two intervals have fired in turn and the counter
    has run out, the interval of the handle 1 is still running. *)
Lemma setCountdown_again_keeps_earlier_interval_witness :
  let w := Entity.setCountdown 5 1 (Entity.world Entity.sample ∅) in
  let after :=
    fold_left (λ w handle, Entity.fire handle w) [1; 2; 1; 2; 1; 1]%nat
      (Entity.setCountdown 2 2 w) in
  (Entity.intervals w !! 1%nat = Some Entity.countdownCallback ∧ 2%nat ≠ 1%nat)
  ∧ Entity.counter (Entity.entity after) = 0
  ∧ Entity.counterInterval (Entity.entity after) = None
  ∧ Entity.intervals after !! 1%nat = Some Entity.countdownCallback.
Proof.
  intros w after. split; [split; [reflexivity|discriminate]|].
  split; [reflexivity|]. split; [reflexivity|].
  exact (setCountdown_again_keeps_earlier_interval 2 1 2 w [1; 2; 1; 2; 1; 1]%nat
           eq_refl ltac:(discriminate)).
Defined.

(** * Device detection *)

(** X19. The device classes of [detect.ts] are nested as their names say:
    an iPad is a mobile device; a tablet is a mobile device whose window is
    at least 640 wide, so a mobile device on a large screen (1500 and up) is
    a tablet; and an agent that mentions chrome is never taken for Safari,
    though it may mention safari. *)
Theorem detect_device_classes (b : Detect.Browser) :
  (Detect.isIPad b = true → Detect.isMobile b = true)
  ∧ (Detect.isTablet b = true ↔ Detect.isMobile b = true ∧ 640 ≤ Detect.innerWidth b)
  ∧ (Detect.isMobile b = true → Detect.isLargeScreen b = true → Detect.isTablet b = true)
  ∧ (Detect.includes "chrome" (Detect.agent b) = true → Detect.isSafari b = false).
Proof.
  unfold Detect.isTablet, Detect.isIPad, Detect.isMobile, Detect.isLargeScreen,
    Detect.isSafari.
  split; [|split; [|split]].
  - intros ->. now rewrite orb_true_r.
  - rewrite andb_true_iff, Z.leb_le. reflexivity.
  - intros -> Hlarge. apply Z.leb_le in Hlarge. simpl. apply Z.leb_le. lia.
  - intros ->. now rewrite andb_false_r.
Qed.

(** The theorem on the agent of an iPad, in a window 1024 wide. *)
Lemma detect_device_classes_witness :
  let b :=
    Detect.mk "mozilla/5.0 (ipad; cpu os 15_6 like mac os x) applewebkit/605.1.15 (khtml, like gecko) version/15.6 mobile/15e148 safari/604.1"
      1024 in
  Detect.isIPad b = true
  ∧ Detect.isMobile b = true
  ∧ Detect.isTablet b = true
  ∧ Detect.isSafari b = true
  ∧ Detect.isAppleDevice b = false.
Proof.
  intros b. split; [reflexivity|]. split.
  - exact (proj1 (detect_device_classes b) eq_refl).
  - repeat split.
Defined.

(** * More on the geometry *)

Lemma js_or_same (a : Z) : js_or a a = a.
Proof. unfold js_or. now destruct (a =? 0). Qed.

Lemma js_or_nonzero (a b : Z) : a ≠ 0 → js_or a b = a.
Proof. unfold js_or. intros Ha. now rewrite (proj2 (Z.eqb_neq _ _) Ha). Qed.

(** X11. Mirrored tiles land where the flips put them.  For a tile with
    the Vertical or the Horizontal flag or both, and no Diagonal, on a cell
    at non-negative coordinates with a positive size, [drawImage] scales the
    context by -1 along each flipped axis and blits at the mirrored
    coordinate of that axis ([-dx - width], [-dy - height]) and at the cell's
    own coordinate on the other axis: the fallback [dx || cell.dx] never
    changes the destination here, also in the first row or column. *)
Theorem drawImage_mirrors_without_diagonal (image : Tileset.t) (tile : RendererTile.t)
    (cell : RendererCell.t) (v h : bool) :
  0 ≤ RendererCell.dx cell →
  0 ≤ RendererCell.dy cell →
  0 < RendererCell.width cell →
  0 < RendererCell.height cell →
  let flips :=
    (if v then [TileFlip.Vertical] else []) ++ (if h then [TileFlip.Horizontal] else []) in
  drawImage image tile cell flips
  = (if v || h then [save] else [])
    ++ (if v then [scale 1 (-1)] else [])
    ++ (if h then [scale (-1) 1] else [])
    ++ [blit image
          (RendererTile.x tile) (RendererTile.y tile)
          (RendererTile.width tile) (RendererTile.height tile)
          (if h then - RendererCell.dx cell - RendererCell.width cell
           else RendererCell.dx cell)
          (if v then - RendererCell.dy cell - RendererCell.height cell
           else RendererCell.dy cell)
          (RendererCell.width cell) (RendererCell.height cell)]
    ++ (if v || h then [restore] else []).
Proof.
  intros Hdx Hdy Hwidth Hheight flips. subst flips.
  destruct v, h; cbn [app orb]; [| | |now rewrite drawImage_no_flips];
    rewrite drawImage_with_flips by discriminate;
    match goal with
    | |- context [drawImage_loop ?c ?x ?e] =>
        remember (drawImage_loop c x e) as final eqn:Hfinal
    end;
    unfold drawImage_entry in Hfinal; revert Hfinal; drawImage_loop_run;
    intros ->; simpl;
    rewrite ?js_or_same, ?js_or_nonzero by lia; reflexivity.
Qed.

(** The theorem on a cell of the first row, flipped both ways. *)
Lemma drawImage_mirrors_without_diagonal_witness :
  let cell := RendererCell.mk 32 0 16 16 in
  let source := computeTile 16 Sample.tileset 5 in
  (0 ≤ 32 ∧ 0 ≤ 0 ∧ 0 < 16)
  ∧ drawImage Sample.tileset source cell [TileFlip.Vertical; TileFlip.Horizontal]
    = [save; scale 1 (-1); scale (-1) 1;
       blit Sample.tileset (RendererTile.x source) (RendererTile.y source) 16 16
         (-48) (-16) 16 16;
       restore].
Proof.
  intros cell source. split; [lia|].
  exact (drawImage_mirrors_without_diagonal Sample.tileset source cell true true
           ltac:(simpl; lia) ltac:(simpl; lia) ltac:(simpl; lia) ltac:(simpl; lia)).
Defined.

Lemma Qceiling_add_le (p q : Q) : Qceiling (p + q) ≤ Qceiling p + Qceiling q.
Proof.
  rewrite <- (Qceiling_Z (Qceiling p + Qceiling q)).
  apply Qceiling_resp_le. rewrite inject_Z_plus.
  apply Qplus_le_compat; apply Qle_ceiling.
Qed.

(** X12. Neighbouring cells leave no gap.  On a map index that is not the
    last of its row, and for a scale that is not negative, the cell of the
    next index has the same [dy] and starts, along x, no further right than
    where this cell ends and no further left than where it starts; the cell
    one row down (the index plus the map width) has the same [dx] and
    starts, along y, between the top and the bottom of this cell. *)
Theorem computeCell_no_gap (actualTileSize : Q) (mapWidth index : Z) :
  0 ≤ index →
  0 < mapWidth →
  (0 <= actualTileSize)%Q →
  index mod mapWidth + 1 < mapWidth →
  let here := computeCell actualTileSize mapWidth index in
  let next := computeCell actualTileSize mapWidth (index + 1) in
  let below := computeCell actualTileSize mapWidth (index + mapWidth) in
  RendererCell.dy next = RendererCell.dy here
  ∧ RendererCell.dx here ≤ RendererCell.dx next
    ≤ RendererCell.dx here + RendererCell.width here
  ∧ RendererCell.dx below = RendererCell.dx here
  ∧ RendererCell.dy here ≤ RendererCell.dy below
    ≤ RendererCell.dy here + RendererCell.height here.
Proof.
  intros Hindex Hwidth Hscale Hrow here next below. subst here next below.
  rewrite !computeCell_formula by lia. simpl.
  assert (Hcol : (index + 1) mod mapWidth = index mod mapWidth + 1).
  { symmetry. apply (Z.mod_unique _ _ (index / mapWidth)).
    - left. pose proof (Z.mod_pos_bound index mapWidth Hwidth). lia.
    - rewrite (Z.div_mod index mapWidth) at 1 by lia. ring. }
  assert (Hline : (index + 1) / mapWidth = index / mapWidth).
  { symmetry. apply (Z.div_unique _ _ _ (index mod mapWidth + 1)).
    - left. pose proof (Z.mod_pos_bound index mapWidth Hwidth). lia.
    - rewrite (Z.div_mod index mapWidth) at 1 by lia. ring. }
  assert (Hcol' : (index + mapWidth) mod mapWidth = index mod mapWidth).
  { replace (index + mapWidth) with (index + 1 * mapWidth) by ring.
    now rewrite Z.mod_add by lia. }
  assert (Hline' : (index + mapWidth) / mapWidth = index / mapWidth + 1).
  { replace (index + mapWidth) with (index + 1 * mapWidth) by ring.
    now rewrite Z.div_add by lia. }
  assert (Hstep : ∀ n : Z,
            Qceiling (inject_Z n * actualTileSize)
            ≤ Qceiling (inject_Z (n + 1) * actualTileSize)
            ≤ Qceiling (inject_Z n * actualTileSize) + Qceiling actualTileSize).
  { intros n.
    assert (Hsum : (inject_Z (n + 1) * actualTileSize
                    == inject_Z n * actualTileSize + actualTileSize)%Q).
    { rewrite inject_Z_plus. change (inject_Z 1) with 1%Q. ring. }
    rewrite (Qceiling_comp _ _ Hsum). split.
    - apply Qceiling_resp_le.
      rewrite <- (Qplus_0_r (inject_Z n * actualTileSize)) at 1.
      apply Qplus_le_compat; [apply Qle_refl|exact Hscale].
    - apply Qceiling_add_le. }
  rewrite Hcol, Hline, Hcol', Hline'.
  split; [reflexivity|]. split; [apply Hstep|]. split; [reflexivity|apply Hstep].
Qed.

(** The theorem for the map index 12 of a map 10 wide at a zoom that makes a
    tile 33/2 pixels: the cell is 17 wide, the next one starts 16 further. *)
Lemma computeCell_no_gap_witness :
  let here := computeCell (33 # 2) 10 12 in
  let next := computeCell (33 # 2) 10 13 in
  (0 ≤ 12 ∧ 0 < 10 ∧ (0 <= 33 # 2)%Q ∧ 12 mod 10 + 1 < 10)
  ∧ (RendererCell.dx here, RendererCell.width here, RendererCell.dx next) = (33, 17, 50)
  ∧ RendererCell.dx next ≤ RendererCell.dx here + RendererCell.width here.
Proof.
  intros here next.
  split; [repeat split; try discriminate; reflexivity|]. split; [reflexivity|].
  destruct (computeCell_no_gap (33 # 2) 10 12) as (_ & [_ Hnext] & _);
    [discriminate | reflexivity | discriminate | reflexivity | exact Hnext].
Defined.

(** [getX] on a width that is a whole number up to the equality of
    rationals, as the [setWidth] of a tileset is. *)
Lemma getX_column_of (index width : Z) (q : Q) :
  0 ≤ index → 0 < width → (q == inject_Z width)%Q →
  (getX (inject_Z (index + 1)) q == inject_Z (index mod width))%Q.
Proof.
  intros Hindex Hwidth Hq.
  assert (Hpred : (inject_Z (index + 1) - 1 == inject_Z index)%Q).
  { rewrite inject_Z_plus. change (inject_Z 1) with 1%Q. ring. }
  assert (Hquot : ((inject_Z (index + 1) - 1) / q
                   == inject_Z index / inject_Z width)%Q)
    by now rewrite Hpred, Hq.
  assert (Hpos : (0 <= inject_Z index / inject_Z width)%Q).
  { apply Qle_shift_div_l.
    - change 0%Q with (inject_Z 0). now rewrite <- Zlt_Qlt.
    - rewrite Qmult_0_l. change 0%Q with (inject_Z 0). now rewrite <- Zle_Qle. }
  unfold getX, js_rem, Qtrunc.
  assert (Hsign : Qle_bool 0 ((inject_Z (index + 1) - 1) / q) = true).
  { apply Qle_bool_iff. now rewrite Hquot. }
  rewrite Hsign, (Qfloor_comp _ _ Hquot), <- Zdiv_Qdiv, Hpred, Hq.
  rewrite Z.mod_eq by lia.
  unfold Zminus. rewrite inject_Z_plus, inject_Z_opp, inject_Z_mult. ring.
Qed.

(** X13. The source rectangle of a tile id.  For a tileset whose image is a
    whole number of tiles wide and a tile id from its first id on,
    [drawTile] computes the rectangle of the tile in column
    [relativeTileId mod columns] and row [relativeTileId / columns] of the
    tileset: it lies within the width of the image, and column and row give
    the relative tile id back. *)
Theorem computeTile_in_tileset (tileSize columns : Z) (tileset : Tileset.t) (tileId : Z) :
  0 < tileSize →
  0 < columns →
  Tileset.width tileset = columns * tileSize →
  Tileset.firstGid tileset ≤ tileId →
  let source := computeTile tileSize tileset tileId in
  let relative := tileId - Tileset.firstGid tileset in
  let column := relative mod columns in
  let row := relative / columns in
  RendererTile.relativeTileId source = relative
  ∧ (RendererTile.x source == inject_Z (column * tileSize))%Q
  ∧ RendererTile.y source = row * tileSize
  ∧ 0 ≤ column * tileSize
  ∧ column * tileSize + RendererTile.width source ≤ Tileset.width tileset
  ∧ row * columns + column = relative.
Proof.
  intros Hsize Hcolumns Hwidth Hfirst source relative column row.
  subst source column row. unfold computeTile. fold relative.
  cbn [RendererTile.x RendererTile.y RendererTile.width RendererTile.relativeTileId].
  assert (Hnonzero : ¬ (inject_Z tileSize == 0)%Q).
  { change 0%Q with (inject_Z 0). rewrite inject_Z_injective. lia. }
  assert (HsetWidth : (inject_Z (Tileset.width tileset) / inject_Z tileSize
                       == inject_Z columns)%Q).
  { rewrite Hwidth, inject_Z_mult. now apply Qdiv_mult_l. }
  assert (Hrelative : 0 ≤ relative) by (subst relative; lia).
  pose proof (Z.mod_pos_bound relative columns Hcolumns) as Hbound.
  split; [reflexivity|]. split; [|split; [|split; [|split]]].
  - rewrite (getX_column_of relative columns _ Hrelative Hcolumns HsetWidth).
    now rewrite inject_Z_mult.
  - assert (Hrow : (inject_Z relative / (inject_Z (Tileset.width tileset) / inject_Z tileSize)
                    == inject_Z relative / inject_Z columns)%Q)
      by now rewrite HsetWidth.
    now rewrite (Qfloor_comp _ _ Hrow), <- Zdiv_Qdiv.
  - nia.
  - rewrite Hwidth. nia.
  - rewrite (Z.div_mod relative columns) at 3 by lia. ring.
Qed.

(** The theorem on the tile id 13 of the sample tileset (8 columns of 16
    pixels, first id 1): column 4, row 1. *)
Lemma computeTile_in_tileset_witness :
  let source := computeTile 16 Sample.tileset 13 in
  (0 < 16 ∧ 0 < 8 ∧ Tileset.width Sample.tileset = 8 * 16
   ∧ Tileset.firstGid Sample.tileset ≤ 13)
  ∧ (RendererTile.x source == inject_Z (4 * 16))%Q
  ∧ RendererTile.y source = 1 * 16.
Proof.
  intros source. split; [repeat split; try discriminate; reflexivity|].
  destruct (computeTile_in_tileset 16 8 Sample.tileset 13) as (_ & Hx & Hy & _);
    [reflexivity | reflexivity | reflexivity | discriminate | ].
  split; [exact Hx|exact Hy].
Defined.

(** * Layer routing over a frame *)

(** C2. A pass of [draw] over the visible tiles (the frame not rendered
    yet, every visible tile a tile id or a record with its flips) makes, on
    the drawing contexts, the calls of its prologue, then the calls of each
    visible tile in the order the tiles are visited, then the calls of its
    epilogue.  For every visible tile whose tile id the Map does not mark as
    animated, all the calls of that tile are on one surface, and its blit
    (there is one unless [drawTile] skips the tile: negative id, or no
    tileset) is on that surface: the overlay context when an overlay is
    active and the Map classifies the tile id as a light tile, high tile or
    not; otherwise the foreground context when the Map classifies the tile id
    as a high tile, and the background context when it does not. *)
Theorem draw_routes_layer {R : Type} `{!Renderer.t R} {Animation : Type}
    (map : Map.t Animation) (game : Game.t) (visible : list (ClientTile * Z))
    (st : Canvas.t R Animation) :
  Renderer.hasRenderedFrame (Canvas.base st) = false →
  Forall (λ entry, is_Some (visibleTileId map (fst entry))) visible →
  ∃ st' segments,
    draw map game visible st = Some st'
    ∧ Canvas.log st'
      = Canvas.log st ++ drawPrologue ++ concat segments ++ drawEpilogue
    ∧ Forall2
        (λ (entry : ClientTile * Z) (segment : list (Context * ContextCall)),
           ∀ tile,
             visibleTileId map (fst entry) = Some tile →
             Map.isAnimatedTile map tile = false →
             let context :=
               if Game.hasOverlay game && Map.isLightTile map tile then overlayContext
               else if Map.isHighTile map tile then foreContext
               else backContext in
             (∃ calls, segment = List.map (pair context) calls)
             ∧ blits segment
               = (if tile <? 0 then []
                  else match Map.getTilesetFromId map tile with
                       | Some _ => [context]
                       | None => []
                       end))
        visible segments.
Proof.
  intros Hframe Hvisible.
  rewrite (draw_unfold map game visible st Hframe).
  set (st0 := Canvas.mk (Canvas.base st) (Canvas.animatedTiles st) (Canvas.tiles st)
                (Canvas.cells st) (Canvas.log st ++ drawPrologue)).
  set (routed := λ (entry : ClientTile * Z) (segment : list (Context * ContextCall)),
         ∀ tile,
           visibleTileId map (fst entry) = Some tile →
           Map.isAnimatedTile map tile = false →
           let context :=
             if Game.hasOverlay game && Map.isLightTile map tile then overlayContext
             else if Map.isHighTile map tile then foreContext
             else backContext in
           (∃ calls, segment = List.map (pair context) calls)
           ∧ blits segment
             = (if tile <? 0 then []
                else match Map.getTilesetFromId map tile with
                     | Some _ => [context]
                     | None => []
                     end)).
  assert (Htiles : ∀ s, ∃ s' segments,
            forEachVisibleTile map game visible s = Some s'
            ∧ Canvas.log s' = Canvas.log s ++ concat segments
            ∧ Forall2 routed visible segments).
  { induction Hvisible as [|[tile index] rest [id Hid] _ IH]; intros s.
    - exists s, []. simpl. rewrite app_nil_r. repeat split. constructor.
    - simpl in Hid.
      assert (Hone : ∃ s1 segment,
                drawVisibleTile map game tile index s = Some s1
                ∧ Canvas.log s1 = Canvas.log s ++ segment
                ∧ routed (tile, index) segment).
      { destruct (Map.isAnimatedTile map id) eqn:Hanimated.
        - destruct (drawVisibleTile map game tile index s) as [s1|] eqn:Hdraw.
          + destruct (drawVisibleTile_segment map game tile index s s1 Hdraw)
              as (segment & Hlog & _).
            exists s1, segment. split; [reflexivity|]. split; [exact Hlog|].
            intros tile' Htile'. simpl in Htile'. rewrite Hid in Htile'.
            injection Htile' as <-. rewrite Hanimated. discriminate.
          + exfalso. revert Hdraw. unfold drawVisibleTile. rewrite Hid. simpl.
            now destruct (_ && _).
        - destruct (drawVisibleTile_routes map game tile id index s Hid Hanimated)
            as (calls & Hdraw & Hlog & Hblits).
          eexists. eexists. split; [exact Hdraw|]. split; [exact Hlog|].
          intros tile' Htile'. simpl in Htile'. rewrite Hid in Htile'.
          injection Htile' as <-. intros _. split; [now exists calls|exact Hblits]. }
      destruct Hone as (s1 & segment & Hdraw & Hlog & Hrouted).
      destruct (IH s1) as (s' & segments & Hrest & Hlog' & Hall).
      exists s', (segment :: segments). simpl. rewrite Hdraw. simpl.
      split; [exact Hrest|]. split; [now rewrite Hlog', Hlog, <- app_assoc|].
      now constructor. }
  destruct (Htiles st0) as (s' & segments & Hrun & Hlog & Hall).
  exists (Canvas.mk (Renderer.saveFrame (Canvas.base s')) (Canvas.animatedTiles s')
            (Canvas.tiles s') (Canvas.cells s') (Canvas.log s' ++ drawEpilogue)),
         segments.
  rewrite Hrun. simpl. split; [reflexivity|]. split; [|exact Hall].
  rewrite Hlog. subst st0. simpl. now rewrite <- !app_assoc.
Qed.

(** The theorem on a frame of the sample world with its overlay active:
    the tile id 7 is a high tile, the tile id 5 is a light tile, the tile id
    3 is neither; the pass blits them on the foreground, on the overlay and
    on the background, in this order. *)
Lemma draw_routes_layer_witness :
  let visible := [(TileNumber 7, 12); (TileNumber 5, 3); (TileNumber 3, 4)] in
  (Renderer.hasRenderedFrame (Canvas.base Sample.start) = false
   ∧ Forall (λ entry, is_Some (visibleTileId Sample.map (fst entry))) visible)
  ∧ (∃ st' segments,
       draw Sample.map Sample.gameWithOverlay visible Sample.start = Some st'
       ∧ Canvas.log st'
         = Canvas.log Sample.start ++ drawPrologue ++ concat segments ++ drawEpilogue)
  ∧ (blits ∘ Canvas.log) <$> draw Sample.map Sample.gameWithOverlay visible Sample.start
    = Some [foreContext; overlayContext; backContext].
Proof.
  intros visible.
  assert (Hvisible : Forall (λ entry, is_Some (visibleTileId Sample.map (fst entry)))
                       visible)
    by (repeat constructor; eexists; reflexivity).
  split; [split; [reflexivity|exact Hvisible]|]. split; [|reflexivity].
  destruct (draw_routes_layer Sample.map Sample.gameWithOverlay visible Sample.start)
    as (st' & segments & Hdraw & Hlog & _); [reflexivity|exact Hvisible|].
  exists st', segments. split; [exact Hdraw|exact Hlog].
Defined.
